(** * fastmod: batching engine of a parallel recursive chmod/chgrp

    A shallow embedding of [fastmod.py] and the properties of its
    producer/worker batching engine.

    Conventions of the embedding.
    - Python [int] values ([blocksize], [ncpus], exit codes) are [Z].
    - A Python [set] of path strings is a [gset string]; iterating it
      (to build the argument list of a command) is [elements].
    - The per-worker [dict] from permission string to path set is an
      association list: Python dictionaries iterate in key insertion
      order, and the drain loop of the worker iterates it.
    - [os.system] calls are recorded as structured commands ([syscmd]);
      [command_line] renders the string the source composes. The shell
      that [os.system] starts is not modelled: a statement about a command
      is about its command line and the paths it is composed of, which the
      source quotes and does not escape.
    - The operating system ([os.path.exists], [os.path.isdir], [os.walk],
      the wall clock) and the builtin [int] are fields of [Env]. *)

From Stdlib Require Import ZArith String List Ascii Lia.
From stdpp Require Import base gmap strings list.

Local Open Scope string_scope.
Local Open Scope list_scope.
Local Open Scope Z_scope.

(** ** Queue items and commands *)

(** What travels on the queue: a task [(root, name, perms)] or the
    termination tuple [(None, None, None)]. *)
Inductive qitem : Type :=
| Task (root name perms : string)
| Stop.

(** One [os.system] call of the program. [force] is the [-f] flag that the
    worker adds when quiet. *)
Inductive syscmd : Type :=
| Chgrp (force : bool) (group : string) (paths : list string)
| Chmod (force : bool) (perms : string) (paths : list string).

Definition cmd_paths (c : syscmd) : list string :=
  match c with
  | Chgrp _ _ ps => ps
  | Chmod _ _ ps => ps
  end.

Definition is_chmod (c : syscmd) : bool :=
  match c with Chmod _ _ _ => true | Chgrp _ _ _ => false end.

Definition is_chgrp (c : syscmd) : bool :=
  match c with Chgrp _ _ _ => true | Chmod _ _ _ => false end.

(** [' '.join([f"'{b}'" for b in buffered])] *)
Fixpoint joined_paths (ps : list string) : string :=
  match ps with
  | [] => ""
  | [p] => "'" +:+ p +:+ "'"
  | p :: rest => "'" +:+ p +:+ "' " +:+ joined_paths rest
  end.

Definition command_line (c : syscmd) : string :=
  match c with
  | Chgrp force group ps =>
      (if force then "chgrp -f " else "chgrp ") +:+ group +:+ " " +:+ joined_paths ps
  | Chmod force perms ps =>
      (if force then "chmod -f " else "chmod ") +:+ perms +:+ " " +:+ joined_paths ps
  end.

(** ** The worker ([worker_main]) *)

Module Worker.

(** [buffer = {}]: permission string to set of paths, in insertion order
    of the keys. *)
Definition buffer : Type := list (string * gset string).

Fixpoint find (perms : string) (b : buffer) : option (gset string) :=
  match b with
  | [] => None
  | (k, s) :: rest => if decide (k = perms) then Some s else find perms rest
  end.

(** [buffer.setdefault(perms, set()).add(path)] *)
Fixpoint add (perms path : string) (b : buffer) : buffer :=
  match b with
  | [] => [(perms, {[ path ]})]
  | (k, s) :: rest =>
      if decide (k = perms) then (k, {[ path ]} ∪ s) :: rest
      else (k, s) :: add perms path rest
  end.

(** [buffer[perms].clear()] *)
Fixpoint clear (perms : string) (b : buffer) : buffer :=
  match b with
  | [] => []
  | (k, s) :: rest =>
      if decide (k = perms) then (k, ∅) :: rest
      else (k, s) :: clear perms rest
  end.

(** Lines 75-78: the resolved path of a task. *)
Definition resolve (root name : string) : string :=
  if decide (name = ".") then root else root +:+ "/" +:+ name.

(** Lines 87-90 and 95-98: one batch handed to the external commands,
    [chgrp] (only when a group is set) and then [chmod]. *)
Definition flush (group : option string) (quiet : bool)
    (perms : string) (buffered : gset string) : list syscmd :=
  let paths := elements buffered in
  match group with
  | Some g => [Chgrp quiet g paths; Chmod quiet perms paths]
  | None => [Chmod quiet perms paths]
  end.

(** Lines 83-91: the body of the loop for one task. *)
Definition task (group : option string) (quiet : bool) (blocksize : Z)
    (root name perms : string) (b : buffer) : buffer * list syscmd :=
  let path := resolve root name in
  let b1 := add perms path b in
  let buffered := default ∅ (find perms b1) in
  if Z.of_nat (size buffered) >=? blocksize
  then (clear perms b1, flush group quiet perms buffered)
  else (b1, []).

(** Lines 92-98: the loop after the [break]. *)
Definition drain (group : option string) (quiet : bool) (b : buffer) : list syscmd :=
  flat_map (fun '(perms, buffered) =>
              if decide (buffered = ∅) then [] else flush group quiet perms buffered) b.

(** Lines 73-91: the [while True] loop on the items this worker dequeues.
    It yields the buffer at the [break] and the commands run so far; a
    stream that ends without [Stop] leaves the worker blocked in
    [queue.get()] ([None]). *)
Fixpoint loop (group : option string) (quiet : bool) (blocksize : Z)
    (stream : list qitem) (b : buffer) (out : list syscmd)
  : option (buffer * list syscmd) :=
  match stream with
  | [] => None
  | Stop :: _ => Some (b, out)
  | Task root name perms :: rest =>
      let '(b', cmds) := task group quiet blocksize root name perms b in
      loop group quiet blocksize rest b' (out ++ cmds)
  end.

(** [worker_main(queue, group, quiet, blocksize)], as a function of the
    items the worker takes from the queue: the commands it runs. *)
Definition worker_main (group : option string) (quiet : bool) (blocksize : Z)
    (stream : list qitem) : option (list syscmd) :=
  match loop group quiet blocksize stream [] [] with
  | Some (b, out) => Some (out ++ drain group quiet b)
  | None => None
  end.

(** The tuple a task is on the queue. *)
Definition task_of (t : string * string * string) : qitem :=
  let '(root, name, perms) := t in Task root name perms.

(** Every group of the buffer is smaller than the block size. *)
Definition sizes_below (blocksize : Z) (b : buffer) : Prop :=
  Forall (fun ks => Z.of_nat (size ks.2) < blocksize) b.

(** The two commands of a batch when a group is set. *)
Definition chgrp_then_chmod (quiet : bool) (g : string)
    (batch : string * gset string) : list syscmd :=
  [Chgrp quiet g (elements batch.2); Chmod quiet batch.1 (elements batch.2)].

End Worker.

(** ** Configuration, environment and outcomes *)

(** [PRESETS] *)
Definition PRESETS : list (string * (string * string)) :=
  [ ("baseline", ("u+rw,g+r-w,o+r-w", "u+rwx,g+rxs-w,o+rx-w"));
    ("group-allowed", ("ug+rw,o+r-w", "ug+rwx,g+s,o+rx-w"));
    ("private", ("u+rw,go-rwx", "u+rwx,g-rwx,o-rwx"));
    ("private-group", ("ug+rw,o-rwx", "ug+rwx,g+s,o-rwx"));
    ("readonly", ("a-w,+t", "a-w,+t")) ].

Fixpoint preset (name : string) (table : list (string * (string * string)))
  : option (string * string) :=
  match table with
  | [] => None
  | (k, v) :: rest => if decide (k = name) then Some v else preset name rest
  end.

(** [class Config]. [path] is set by [parse_args] right after the
    construction, so the embedding gives it to the constructor. *)
Record Config : Type := mkConfig {
  path : string;
  perms_fil : string;
  perms_dir : string;
  group : option string;
  set_group : bool;
  ncpus : Z;
  blocksize : Z;
  quiet : bool
}.

(** One entry of [os.walk]: [(root, dirs, files)]. *)
Definition walk_entry : Type := string * list string * list string.

(** What the program reads from its surroundings: the module-level
    constants computed at load time, the file system queries, the builtin
    [int] on strings ([None] for [ValueError]) and whether the two readings
    of [time.time()] in [fastmod_folder] coincide. *)
Record Env : Type := mkEnv {
  DEFAULT_BLOCKSIZE : Z;
  DEFAULT_CORES : Z;
  DEFAULT_PRESET : string;
  PRIMARY_GROUP : string;
  path_exists : string -> bool;
  path_isdir : string -> bool;
  os_walk : string -> list walk_entry;
  py_int : string -> option Z;
  duration_is_zero : bool
}.

(** The lines the program prints, by format string. *)
Inductive message : Type :=
| MsgHelp                          (* show_help() *)
| MsgNoSuchPath (p : string)       (* fastmod: no such path as '{p}' *)
| MsgNoPreset (name : string)      (* fastmod: preset '{name}' does not exist *)
| MsgFlagsSyntax                   (* fastmod: specify multiple permission flags like ... *)
| MsgUsing (n b : Z)               (* Using {n} workers, block size {b} *)
| MsgFilePerms (p : string)        (* Setting file permissions:      {p} *)
| MsgDirPerms (p : string)         (* Setting directory permissions: {p} *)
| MsgGroup (g : option string)     (* Setting group ownership:       {g} *)
| MsgReport (total : Z)            (* Set permissions on {total} files in ... *)
| MsgDone.                         (* Done *)

(** What the coordinating process does, in order. *)
Inductive event : Type :=
| Print (m : message)
| Spawn (group : option string) (quiet : bool) (blocksize : Z)   (* worker.start() *)
| Put (x : qitem)                                                (* queue.put_nowait *)
| Join                                                           (* worker.join() *)
| System (c : syscmd).                                           (* os.system *)

Inductive exn : Type := KeyError | ValueError | IndexError | ZeroDivisionError.

(** How a call ends: it returns, it calls [sys.exit], or it raises. *)
Inductive result (A : Type) : Type :=
| Ret (a : A)
| Exit (code : Z)
| Raise (e : exn).
Arguments Ret {A} a.
Arguments Exit {A} code.
Arguments Raise {A} e.

(** A computation: the events it performs and how it ends. *)
Definition M (A : Type) : Type := list event * result A.

Definition ret {A} (a : A) : M A := ([], Ret a).
Definition emit (e : event) : M unit := ([e], Ret tt).
Definition emits (es : list event) : M unit := (es, Ret tt).
Definition sys_exit {A} (code : Z) : M A := ([], Exit code).
Definition raise {A} (e : exn) : M A := ([], Raise e).

#[global] Instance M_bind : MBind M := fun A B (k : A -> M B) (m : M A) =>
  match m with
  | (es, Ret a) => let '(es', r) := k a in (es ++ es', r)
  | (es, Exit c) => (es, Exit c)
  | (es, Raise e) => (es, Raise e)
  end.

(** [if cond: body] for a body that only performs events. *)
Definition when (c : bool) (m : M unit) : M unit := if c then m else ret tt.

(** ** Argument parsing ([parse_args]) *)

(** [s[n:]] *)
Fixpoint drop_chars (n : nat) (s : string) : string :=
  match n, s with
  | O, _ => s
  | S n', String _ rest => drop_chars n' rest
  | S _, EmptyString => EmptyString
  end.

(** [s.split(c)] *)
Fixpoint split_on (c : ascii) (s : string) : list string :=
  match s with
  | EmptyString => [EmptyString]
  | String a rest =>
      if decide (a = c) then EmptyString :: split_on c rest
      else match split_on c rest with
           | [] => [String a EmptyString]
           | w :: ws => String a w :: ws
           end
  end.

(** [c in s] *)
Fixpoint contains (c : ascii) (s : string) : bool :=
  match s with
  | EmptyString => false
  | String a rest => if decide (a = c) then true else contains c rest
  end.

(** [Config()] followed by [config.path = argv[1]]. *)
Definition Config_init (E : Env) (p : string) : M Config :=
  match preset (DEFAULT_PRESET E) PRESETS with
  | None => raise KeyError
  | Some (fil, dir) =>
      ret {| path := p; perms_fil := fil; perms_dir := dir;
             group := None; set_group := false;
             ncpus := DEFAULT_CORES E; blocksize := DEFAULT_BLOCKSIZE E;
             quiet := false |}
  end.

Definition colon : ascii := ":"%char.

(** Lines 190-219: one argument. [None] is the [return None] of the
    function. *)
Definition parse_arg (E : Env) (arg : string) (c : Config) : M (option Config) :=
  if String.prefix "-G" arg then
    ret (Some {| path := path c; perms_fil := perms_fil c; perms_dir := perms_dir c;
                 group := Some (if decide (arg = "-G") then PRIMARY_GROUP E
                                else drop_chars 2 arg);
                 set_group := true;
                 ncpus := ncpus c; blocksize := blocksize c; quiet := quiet c |})
  else if String.prefix "-C" arg then
    match py_int E (drop_chars 2 arg) with
    | None => raise ValueError
    | Some n =>
        ret (Some {| path := path c; perms_fil := perms_fil c; perms_dir := perms_dir c;
                     group := group c; set_group := set_group c;
                     ncpus := n; blocksize := blocksize c; quiet := quiet c |})
    end
  else if String.prefix "-B" arg then
    match py_int E (drop_chars 2 arg) with
    | None => raise ValueError
    | Some n =>
        ret (Some {| path := path c; perms_fil := perms_fil c; perms_dir := perms_dir c;
                     group := group c; set_group := set_group c;
                     ncpus := ncpus c; blocksize := n; quiet := quiet c |})
    end
  else if decide (arg = "-q") then
    ret (Some {| path := path c; perms_fil := perms_fil c; perms_dir := perms_dir c;
                 group := group c; set_group := set_group c;
                 ncpus := ncpus c; blocksize := blocksize c; quiet := true |})
  else if String.prefix "--" arg then
    let preset_name := drop_chars 2 arg in
    match preset preset_name PRESETS with
    | None => emit (Print (MsgNoPreset preset_name)) ;; ret None
    | Some (fil, dir) =>
        ret (Some {| path := path c; perms_fil := fil; perms_dir := dir;
                     group := group c; set_group := set_group c;
                     ncpus := ncpus c; blocksize := blocksize c; quiet := quiet c |})
    end
  else if contains colon arg then
    match split_on colon arg with
    | [fil; dir] =>
        ret (Some {| path := path c; perms_fil := fil; perms_dir := dir;
                     group := group c; set_group := set_group c;
                     ncpus := ncpus c; blocksize := blocksize c; quiet := quiet c |})
    | _ => emit (Print MsgFlagsSyntax) ;; ret None
    end
  else
    ret (Some {| path := path c; perms_fil := arg; perms_dir := arg;
                 group := group c; set_group := set_group c;
                 ncpus := ncpus c; blocksize := blocksize c; quiet := quiet c |}).

(** Lines 189-221: [for arg in argv[2:]] and the final [return config]. *)
Fixpoint parse_rest (E : Env) (args : list string) (c : Config) : M (option Config) :=
  match args with
  | [] => ret (Some c)
  | arg :: rest =>
      r ← parse_arg E arg c;
      match r with
      | None => ret None
      | Some c' => parse_rest E rest c'
      end
  end.

Definition parse_args (E : Env) (argv : list string) : M (option Config) :=
  match argv with
  | _ :: p :: rest =>
      c ← Config_init E p;
      (if path_exists E p then ret tt
       else emit (Print (MsgNoSuchPath p)) ;; sys_exit 1) ;;
      parse_rest E rest c
  | _ => raise IndexError
  end.

(** ** The coordinator ([fastmod_folder], [fastmod_file], [main]) *)

(** Lines 240-245: what the walk loop puts on the queue. *)
Definition entry_tasks (c : Config) (e : walk_entry) : list qitem :=
  let '(root, _, files) := e in
  Task root "." (perms_dir c) :: map (fun file => Task root file (perms_fil c)) files.

Definition walk_tasks (c : Config) (walk : list walk_entry) : list qitem :=
  flat_map (entry_tasks c) walk.

(** [workers]: one process per element of [range(config.ncpus)]. *)
Definition nworkers (c : Config) : nat := Z.to_nat (ncpus c).

(** Everything the coordinator puts on the queue, in order: the tasks of
    the walk, then one termination tuple per worker. *)
Definition produced (c : Config) (walk : list walk_entry) : list qitem :=
  walk_tasks c walk ++ repeat Stop (nworkers c).

(** Lines 253-256: the report. [duration/total] is evaluated before
    [total/duration]. *)
Definition report (E : Env) (total : Z) : M unit :=
  if total =? 0 then raise ZeroDivisionError
  else if duration_is_zero E then raise ZeroDivisionError
  else emit (Print (MsgReport total)).

Definition fastmod_folder (E : Env) (c : Config) : M unit :=
  when (negb (quiet c)) (emit (Print (MsgUsing (ncpus c) (blocksize c)))) ;;
  let group_or_none := if set_group c then group c else None in
  emits (repeat (Spawn group_or_none (quiet c) (blocksize c)) (nworkers c)) ;;
  let tasks := walk_tasks c (os_walk E (path c)) in
  emits (map Put tasks) ;;
  let total := Z.of_nat (length tasks) in
  emits (repeat (Put Stop) (nworkers c)) ;;
  emits (repeat Join (nworkers c)) ;;
  report E total.

(** [f"chgrp {config.group} ..."] formats a missing group as [None]. *)
Definition fmt_group (g : option string) : string :=
  match g with Some s => s | None => "None" end.

Definition fastmod_file (c : Config) : M unit :=
  emit (System (Chmod false (perms_fil c) [path c])) ;;
  when (set_group c) (emit (System (Chgrp false (fmt_group (group c)) [path c]))) ;;
  emit (Print MsgDone).

Definition main (E : Env) (argv : list string) : M Z :=
  match argv with
  | [] | [_] => emit (Print MsgHelp) ;; ret 1
  | _ =>
      r ← parse_args E argv;
      match r with
      | None => ret 1
      | Some config =>
          when (negb (quiet config))
            (emit (Print (MsgFilePerms (perms_fil config))) ;;
             emit (Print (MsgDirPerms (perms_dir config))) ;;
             when (set_group config) (emit (Print (MsgGroup (group config))))) ;;
          (if path_isdir E (path config) then fastmod_folder E config
           else fastmod_file config) ;;
          ret 0
      end
  end.

(** [sys.exit(main(sys.argv))]: the events of [main] and the status the
    process is to end with, which is what [main] returns or hands to
    [sys.exit], and 1 for an uncaught exception. The interpreter then has
    to shut down: [process_end] below tells when it does, which is always
    the case when no item is left on the queue. *)
Definition script (E : Env) (argv : list string) : list event * Z :=
  match main E argv with
  | (es, Ret code) => (es, code)
  | (es, Exit code) => (es, code)
  | (es, Raise _) => (es, 1)
  end.

(** An ASCII decimal reading of [int]: an optional sign and digits. *)
Fixpoint digits (s : string) (acc : Z) : option Z :=
  match s with
  | EmptyString => Some acc
  | String a rest =>
      let n := Z.of_nat (nat_of_ascii a) in
      if (48 <=? n) && (n <=? 57) then digits rest (10 * acc + (n - 48)) else None
  end.

Definition int_of_string (s : string) : option Z :=
  match s with
  | EmptyString => None
  | String "-" (String a r) => Z.opp <$> digits (String a r) 0
  | String "+" (String a r) => digits (String a r) 0
  | _ => digits s 0
  end.

(** A sample environment: one directory [d] holding a file [f], and a
    plain file [x]. *)
Definition sample_env : Env :=
  {| DEFAULT_BLOCKSIZE := 128; DEFAULT_CORES := 3;
     DEFAULT_PRESET := "baseline"; PRIMARY_GROUP := "users";
     path_exists := fun p => bool_decide (p = "d") || bool_decide (p = "x");
     path_isdir := fun p => bool_decide (p = "d");
     os_walk := fun p => if decide (p = "d") then [("d", [], ["f"])] else [];
     py_int := int_of_string;
     duration_is_zero := false |}.

(** ** The directory tree and [os.walk] *)

Module FS.

(** A directory: the names of its regular files and its subdirectories.
    [os.walk] is called with its defaults: top-down, links not followed,
    and a directory that cannot be listed skipped without an error. [walk]
    below is the walk of a tree of regular files and directories that can
    all be listed; [unlistable_env] has a root that cannot. *)
#[local] Set Warnings "-register-all".
Inductive tree : Type :=
| Dir (files : list string) (subdirs : list (string * tree)).

Definition slash : ascii := "/"%char.

Fixpoint ends_with_slash (s : string) : bool :=
  match s with
  | EmptyString => false
  | String a EmptyString => bool_decide (a = slash)
  | String _ rest => ends_with_slash rest
  end.

(** [os.path.join(a, b)] of [posixpath], as [os.walk] calls it. *)
Definition join (a b : string) : string :=
  if String.prefix "/" b then b
  else if bool_decide (a = "") || ends_with_slash a then a +:+ b
  else a +:+ "/" +:+ b.

(** [os.walk(top)]: the entry of the directory, then the walks of its
    subdirectories. *)
Fixpoint walk (top : string) (t : tree) : list walk_entry :=
  match t with
  | Dir files subdirs =>
      (top, map fst subdirs, files)
        :: flat_map (fun '(d, s) => walk (join top d) s) subdirs
  end.

(** F: the number of regular files. *)
Fixpoint nfiles (t : tree) : nat :=
  match t with
  | Dir files subdirs =>
      (length files + list_sum (map (fun '(_, s) => nfiles s) subdirs))%nat
  end.

(** D: the number of directories, the root included. *)
Fixpoint ndirs (t : tree) : nat :=
  match t with
  | Dir files subdirs => S (list_sum (map (fun '(_, s) => ndirs s) subdirs))
  end.

(** A name a directory can hold. *)
Definition valid_name (n : string) : bool :=
  negb (bool_decide (n = "")) && negb (bool_decide (n = "."))
  && negb (bool_decide (n = "..")) && negb (contains slash n).

(** The names of a directory are valid and pairwise distinct, files and
    subdirectories together. *)
Fixpoint valid (t : tree) : bool :=
  match t with
  | Dir files subdirs =>
      forallb valid_name (files ++ map fst subdirs)
      && bool_decide (NoDup (files ++ map fst subdirs))
      && forallb (fun '(_, s) => valid s) subdirs
  end.

(** The separator [join] puts between [top] and a name. *)
Definition sep_of (top : string) : string :=
  if bool_decide (top = "") || ends_with_slash top then "" else "/".

(** The resolved paths of the tasks of a tree, relative to the path of
    its root, when that path does not end with a slash. *)
Fixpoint suffixes (t : tree) : list string :=
  match t with
  | Dir files subdirs =>
      "" :: map (String.append "/") files
         ++ flat_map (fun '(d, s) => map (fun x => "/" +:+ d +:+ x) (suffixes s)) subdirs
  end.

(** The same below any root path, [sep] being its separator. *)
Definition rel_paths (sep : string) (t : tree) : list string :=
  match t with
  | Dir files subdirs =>
      "" :: map (String.append "/") files
         ++ flat_map (fun '(d, s) => map (fun x => sep +:+ d +:+ x) (suffixes s)) subdirs
  end.

(** A relative path that is empty or starts with a slash. *)
Definition rooted (x : string) : Prop := x = "" ∨ ∃ y, x = String slash y.

End FS.

(** ** The pool: one queue, the producer and the workers *)

Module Pool.

(** A worker process: the arguments it was started with, the items it has
    taken, its buffer, the commands it has run, and whether it has left
    [worker_main]. *)
Record worker : Type := mkWorker {
  w_group : option string;
  w_quiet : bool;
  w_blocksize : Z;
  w_in : list qitem;
  w_buf : Worker.buffer;
  w_out : list syscmd;
  w_done : bool
}.

(** [todo]: what the coordinator has still to put; [queue]: the FIFO. *)
Record state : Type := mkState {
  todo : list qitem;
  queue : list qitem;
  workers : list worker
}.

Fixpoint puts_of (es : list event) : list qitem :=
  match es with
  | [] => []
  | Put x :: rest => x :: puts_of rest
  | _ :: rest => puts_of rest
  end.

Fixpoint spawns_of (es : list event) : list worker :=
  match es with
  | [] => []
  | Spawn g q b :: rest => mkWorker g q b [] [] [] false :: spawns_of rest
  | _ :: rest => spawns_of rest
  end.

(** The pool a coordinator trace sets up: every worker is started before
    the first [put]. *)
Definition start (es : list event) : state :=
  {| todo := puts_of es; queue := []; workers := spawns_of es |}.

(** One scheduling decision: the coordinator puts its next item, or
    worker [i] returns from [queue.get()]. *)
Inductive action : Type :=
| APut
| AGet (i : nat).

(** Worker [w] handles the item it has dequeued. *)
Definition handle (w : worker) (x : qitem) : worker :=
  match x with
  | Task root name perms =>
      let '(b', cmds) :=
        Worker.task (w_group w) (w_quiet w) (w_blocksize w) root name perms (w_buf w) in
      mkWorker (w_group w) (w_quiet w) (w_blocksize w)
               (w_in w ++ [x]) b' (w_out w ++ cmds) false
  | Stop =>
      mkWorker (w_group w) (w_quiet w) (w_blocksize w)
               (w_in w ++ [x]) []
               (w_out w ++ Worker.drain (w_group w) (w_quiet w) (w_buf w)) true
  end.

Definition exec (a : action) (s : state) : option state :=
  match a with
  | APut =>
      match todo s with
      | [] => None
      | x :: rest => Some (mkState rest (queue s ++ [x]) (workers s))
      end
  | AGet i =>
      match workers s !! i, queue s with
      | Some w, x :: rest =>
          if w_done w then None
          else Some (mkState (todo s) rest (<[i := handle w x]> (workers s)))
      | _, _ => None
      end
  end.

Fixpoint run (sched : list action) (s : state) : option state :=
  match sched with
  | [] => Some s
  | a :: rest =>
      match exec a s with
      | None => None
      | Some s' => run rest s'
      end
  end.

(** No process can move. *)
Definition stuck (s : state) : Prop := forall a, exec a s = None.

Definition all_done (s : state) : Prop :=
  Forall (fun w => w_done w = true) (workers s).

(** The sizes of the batches in a command trace: one [chmod] per batch. *)
Definition batch_sizes (out : list syscmd) : list nat :=
  map (fun c => length (cmd_paths c)) (filter (fun c => is_chmod c = true) out).

Definition flushed (w : worker) : nat := list_sum (batch_sizes (w_out w)).

Definition flushed_total (s : state) : nat := list_sum (map flushed (workers s)).

Definition is_task (x : qitem) : bool :=
  match x with Task _ _ _ => true | Stop => false end.

(** The paths a buffer holds, all groups together. *)
Definition buffered (b : Worker.buffer) : nat := list_sum (map (fun ks => size ks.2) b).

(** The paths a worker has taken charge of: flushed or still buffered. *)
Definition handled (w : worker) : nat := (flushed w + buffered (w_buf w))%nat.

(** The workers still inside [worker_main]. *)
Definition running (ws : list worker) : nat :=
  list_sum (map (fun w => if w_done w then 0%nat else 1%nat) ws).

(** What is left to do before every process stops: each item is put once
    and taken once. *)
Definition fuel (s : state) : nat := (2 * length (todo s) + length (queue s))%nat.

End Pool.

(** The resolved paths of the tasks in a list of queue items. *)
Fixpoint paths_of (l : list qitem) : list string :=
  match l with
  | [] => []
  | Task root name _ :: rest => Worker.resolve root name :: paths_of rest
  | Stop :: rest => paths_of rest
  end.

(** The [os.system] calls of a coordinator trace. *)
Fixpoint systems_of (es : list event) : list syscmd :=
  match es with
  | [] => []
  | System c :: rest => c :: systems_of rest
  | _ :: rest => systems_of rest
  end.

(** An environment where the directory [d] exists but cannot be listed:
    [os.walk] swallows the error of [scandir] and yields nothing. *)
Definition unlistable_env : Env :=
  {| DEFAULT_BLOCKSIZE := 128; DEFAULT_CORES := 3;
     DEFAULT_PRESET := "baseline"; PRIMARY_GROUP := "users";
     path_exists := fun p => bool_decide (p = "d");
     path_isdir := fun p => bool_decide (p = "d");
     os_walk := fun _ => [];
     py_int := int_of_string;
     duration_is_zero := false |}.

Definition is_print (e : event) : bool :=
  match e with Print _ => true | _ => false end.

(** The invariant of a pool that serves [tasks] with [n] workers: the
    items not yet taken are the remaining tasks followed by one
    termination tuple per running worker; no worker has stopped while a
    task remains; every task taken is counted once, flushed or buffered;
    and a buffer holds only paths of tasks taken. *)
Definition pool_inv (tasks : list qitem) (n : nat) (s : Pool.state) : Prop :=
  ∃ consumed remaining,
    tasks = consumed ++ remaining
    ∧ Pool.queue s ++ Pool.todo s
      = remaining ++ repeat Stop (Pool.running (Pool.workers s))
    ∧ length (Pool.workers s) = n
    ∧ ((Pool.running (Pool.workers s) < n)%nat → remaining = [])
    ∧ list_sum (map Pool.handled (Pool.workers s)) = length consumed
    ∧ Forall (λ w, Forall (λ ks, ∀ y, y ∈ ks.2 → y ∈ paths_of consumed) (Pool.w_buf w)
                   ∧ (Pool.w_done w = true → Pool.w_buf w = []))
             (Pool.workers s).

(** The configuration that [fastmod d -C0 -q] parses to in [sample_env],
    and the tree behind the walk of [d] there. *)
Definition no_worker_config : Config :=
  mkConfig "d" "u+rw,g+r-w,o+r-w" "u+rwx,g+rxs-w,o+rx-w" None false 0 128 true.

Definition sample_tree : FS.tree := FS.Dir ["f"] [].

(** A worker of the pool is [worker_main] on the items it has taken: once
    stopped its commands are those of [worker_main]; before that its
    buffer and commands are those of the loop at this point. *)
Definition worker_agrees (w : Pool.worker) : Prop :=
  if Pool.w_done w
  then Worker.worker_main (Pool.w_group w) (Pool.w_quiet w) (Pool.w_blocksize w)
                          (Pool.w_in w) = Some (Pool.w_out w)
  else Forall (λ x, Pool.is_task x = true) (Pool.w_in w)
       ∧ Worker.loop (Pool.w_group w) (Pool.w_quiet w) (Pool.w_blocksize w)
                     (Pool.w_in w ++ [Stop]) [] []
         = Some (Pool.w_buf w, Pool.w_out w).

(** ** Notions for the properties of the whole program *)

(** The paths of the batches of a command trace for a given permission
    string: those that its [chmod] command lines with that string are
    composed of ([joined_paths] writes each of them between single quotes,
    as it is). *)
Definition batch_paths (perms : string) (out : list syscmd) : list string :=
  flat_map (fun c => match c with
                     | Chmod _ p ps => if decide (p = perms) then ps else []
                     | Chgrp _ _ _ => []
                     end) out.

(** The resolved paths of the tasks, in a list of queue items, that carry
    a given permission string. *)
Definition paths_with (perms : string) (l : list qitem) : list string :=
  flat_map (fun x => match x with
                     | Task root name p =>
                         if decide (p = perms) then [Worker.resolve root name] else []
                     | Stop => []
                     end) l.

(** A command of a worker started with [group] and [quiet]: it carries
    the [-f] flag exactly when quiet, and a [chgrp] names the group. *)
Definition cmd_as_configured (group : option string) (quiet : bool) (c : syscmd) : Prop :=
  match c with
  | Chgrp force g _ => force = quiet ∧ group = Some g
  | Chmod force _ _ => force = quiet
  end.

(** How the process ends: with an exit status, or never, the
    interpreter waiting at exit for the feeder thread of the queue. *)
Inductive ending : Type :=
| Exits (status : Z)
| Hangs.

(** What is on the queue with no process to take it when [main] is over:
    every item put when no worker was started, and nothing otherwise, the
    workers that were joined having taken every item. *)
Definition left_on_queue (es : list event) : list qitem :=
  match Pool.spawns_of es with
  | [] => Pool.puts_of es
  | _ :: _ => []
  end.

(** [sys.exit(main(sys.argv))] up to the end of the process. The queue of
    line 229 is a [multiprocessing.Queue]: a feeder thread writes the items
    put into a pipe, and at exit the interpreter joins that thread. With
    items left that the pipe cannot take in ([pipe_holds] tells whether it
    can), the thread stays blocked in its write and the process never
    ends. *)
Definition process_end (pipe_holds : list qitem → bool)
    (E : Env) (argv : list string) : list event * ending :=
  let '(es, status) := script E argv in
  match left_on_queue es with
  | [] => (es, Exits status)
  | _ :: _ => (es, if pipe_holds (left_on_queue es) then Exits status else Hangs)
  end.

(** The configuration that [fastmod d -q -C1] parses to in
    [unlistable_env]. *)
Definition one_worker_config : Config :=
  mkConfig "d" "u+rw,g+r-w,o+r-w" "u+rwx,g+rxs-w,o+rx-w" None false 1 128 true.

(** The buffer of a worker that has only seen one permission string. *)
Definition single_group (perms : string) (b : Worker.buffer) : Prop :=
  b = [] ∨ ∃ s, b = [(perms, s)].

(** The items the workers have taken, worker after worker. *)
Definition taken (s : Pool.state) : list qitem := flat_map Pool.w_in (Pool.workers s).

(** A worker takes tasks and then, as its last item, one termination
    tuple. *)
Definition took_in_order (w : Pool.worker) : Prop :=
  if Pool.w_done w
  then ∃ l, Forall (λ x, Pool.is_task x = true) l ∧ Pool.w_in w = l ++ [Stop]
  else Forall (λ x, Pool.is_task x = true) (Pool.w_in w).

(** The shape of a pool of [n] workers whose producer puts tasks and then
    [n] termination tuples: what is not yet taken is tasks followed by one
    termination tuple per running worker, and no worker has stopped while
    a task remains. *)
Definition pool_shape (n : nat) (s : Pool.state) : Prop :=
  ∃ remaining,
    Forall (λ x, Pool.is_task x = true) remaining
    ∧ Pool.queue s ++ Pool.todo s
      = remaining ++ repeat Stop (Pool.running (Pool.workers s))
    ∧ length (Pool.workers s) = n
    ∧ ((Pool.running (Pool.workers s) < n)%nat → remaining = []).

(** The lines a trace prints. *)
Fixpoint prints_of (es : list event) : list message :=
  match es with
  | [] => []
  | Print m :: rest => m :: prints_of rest
  | _ :: rest => prints_of rest
  end.

(** [s.count(c)] *)
Fixpoint count_char (c : ascii) (s : string) : nat :=
  match s with
  | EmptyString => 0%nat
  | String a rest => ((if decide (a = c) then 1 else 0) + count_char c rest)%nat
  end.

(** A group is named exactly when it is to be set. *)
Definition group_is_consistent (c : Config) : Prop :=
  set_group c = true ↔ is_Some (group c).

(** An environment whose [FASTMOD_PRESET] names no preset. *)
Definition bad_preset_env : Env :=
  {| DEFAULT_BLOCKSIZE := 128; DEFAULT_CORES := 3;
     DEFAULT_PRESET := "strict"; PRIMARY_GROUP := "users";
     path_exists := fun p => bool_decide (p = "d");
     path_isdir := fun p => bool_decide (p = "d");
     os_walk := fun _ => [("d", [], [])];
     py_int := int_of_string;
     duration_is_zero := false |}.

(** A complete schedule of [fastmod d -C2 -B1 -q] in [sample_env]: the
    coordinator puts its four items, then the two workers take turns. *)
Definition sample_schedule : list Pool.action :=
  [Pool.APut; Pool.APut; Pool.APut; Pool.APut;
   Pool.AGet 0; Pool.AGet 1; Pool.AGet 0; Pool.AGet 1].

Definition two_worker_config : Config :=
  mkConfig "d" "a-w" "u+x" None false 2 1 true.

(** * Properties *)

(** ** The buffer *)

Section Buffer.

Implicit Types (b : Worker.buffer) (s : gset string) (p x : string).

Lemma length_elements s : length (elements s) = size s.
Proof. reflexivity. Qed.

Lemma find_add_eq p x b :
  Worker.find p (Worker.add p x b) = Some ({[ x ]} ∪ default ∅ (Worker.find p b)).
Proof.
  induction b as [|[k s] b IH]; simpl.
  - rewrite decide_True by done. by rewrite (right_id_L ∅ (∪)).
  - destruct (decide (k = p)) as [->|Hne]; simpl.
    + by rewrite decide_True.
    + by rewrite decide_False.
Qed.

Lemma find_add_ne p p' x b :
  p ≠ p' → Worker.find p' (Worker.add p x b) = Worker.find p' b.
Proof.
  intros Hne. induction b as [|[k s] b IH]; simpl.
  - by rewrite decide_False.
  - destruct (decide (k = p)) as [->|Hk]; simpl.
    + by rewrite !decide_False.
    + by rewrite IH.
Qed.

(** Adding a path that is already buffered changes nothing. *)
Lemma add_add p x b : Worker.add p x (Worker.add p x b) = Worker.add p x b.
Proof.
  induction b as [|[k s] b IH]; simpl.
  - rewrite decide_True by done. by rewrite (idemp_L (∪)).
  - destruct (decide (k = p)) as [->|Hk]; simpl.
    + rewrite decide_True by done. by rewrite (assoc_L (∪)), (idemp_L (∪)).
    + rewrite decide_False by done. by rewrite IH.
Qed.

Lemma add_Forall (Q : gset string → Prop) p x b :
  Forall (λ ks, Q ks.2) b →
  Q ({[ x ]} ∪ default ∅ (Worker.find p b)) →
  Forall (λ ks, Q ks.2) (Worker.add p x b).
Proof.
  induction b as [|[k s] b IH]; simpl; intros Hb Hq.
  - rewrite (right_id_L ∅ (∪)) in Hq. by constructor.
  - inversion Hb as [|? ? Hs Hb']; subst.
    destruct (decide (k = p)) as [->|Hk]; simpl in *; constructor; auto.
Qed.

Lemma clear_add_Forall (Q : gset string → Prop) p x b :
  Forall (λ ks, Q ks.2) b → Q ∅ →
  Forall (λ ks, Q ks.2) (Worker.clear p (Worker.add p x b)).
Proof.
  induction b as [|[k s] b IH]; simpl; intros Hb Hq.
  - rewrite decide_True by done. by constructor.
  - inversion Hb as [|? ? Hs Hb']; subst.
    destruct (decide (k = p)) as [->|Hk]; simpl.
    + rewrite decide_True by done. by constructor.
    + rewrite decide_False by done. constructor; auto.
Qed.

Lemma find_Forall (Q : gset string → Prop) p b s :
  Forall (λ ks, Q ks.2) b → Worker.find p b = Some s → Q s.
Proof.
  induction b as [|[k s'] b IH]; simpl; intros Hb Hf; [done|].
  inversion Hb as [|? ? Hs Hb']; subst.
  destruct (decide (k = p)); [by simplify_eq|auto].
Qed.

End Buffer.

(** ** The worker loop *)

Section WorkerLoop.

Variables (g : option string) (quiet : bool) (B : Z).
Variable I : Worker.buffer → Prop.
Variable O : list syscmd → Prop.

Hypothesis task_keeps : ∀ r n p b,
  I b → I (Worker.task g quiet B r n p b).1 ∧ O (Worker.task g quiet B r n p b).2.
Hypothesis O_app : ∀ l1 l2, O l1 → O l2 → O (l1 ++ l2).

(** The loop reaches its [break] on every stream with a termination
    tuple, and carries an invariant of the buffer and of the commands. *)
Lemma loop_invariant ts rest b out :
  I b → O out →
  ∃ b' out',
    Worker.loop g quiet B (map Worker.task_of ts ++ Stop :: rest) b out = Some (b', out')
    ∧ I b' ∧ O out'.
Proof.
  revert b out. induction ts as [|[[r n] p] ts IH]; intros b out Hb Ho; simpl.
  - eauto.
  - destruct (task_keeps r n p b Hb) as [H1 H2].
    destruct (Worker.task g quiet B r n p b) as [b1 cmds]. simpl in *.
    apply IH; auto.
Qed.

End WorkerLoop.

Section WorkerFacts.

Implicit Types (b : Worker.buffer) (s : gset string) (r n p : string).

Lemma task_cases g quiet B r n p b :
  Worker.task g quiet B r n p b =
  let s := {[ Worker.resolve r n ]} ∪ default ∅ (Worker.find p b) in
  if Z.of_nat (size s) >=? B
  then (Worker.clear p (Worker.add p (Worker.resolve r n) b), Worker.flush g quiet p s)
  else (Worker.add p (Worker.resolve r n) b, []).
Proof. unfold Worker.task. by rewrite find_add_eq. Qed.

Lemma size_add_le (x : string) s : (size ({[ x ]} ∪ s) ≤ S (size s))%nat.
Proof.
  rewrite size_union_alt, size_singleton.
  assert (size (s ∖ {[ x ]}) ≤ size s)%nat by (by apply subseteq_size, subseteq_difference_l).
  lia.
Qed.

Lemma size_add_pos (x : string) s : (1 ≤ size ({[ x ]} ∪ s))%nat.
Proof. rewrite size_union_alt, size_singleton. lia. Qed.

Lemma flush_Forall (P : syscmd → Prop) g quiet p s :
  (∀ grp, P (Chgrp quiet grp (elements s))) → P (Chmod quiet p (elements s)) →
  Forall P (Worker.flush g quiet p s).
Proof. intros H1 H2. destruct g; repeat constructor; auto. Qed.

Lemma drain_Forall (P : syscmd → Prop) g quiet b :
  (∀ ks, ks ∈ b → ks.2 ≠ ∅ → Forall P (Worker.flush g quiet ks.1 ks.2)) →
  Forall P (Worker.drain g quiet b).
Proof.
  induction b as [|[k s] b IH]; intros H; simpl; [constructor|].
  apply Forall_app. split.
  - destruct (decide (s = ∅)); [constructor|].
    apply (H (k, s)); [left|done].
  - apply IH. intros ks Hin. apply H. by right.
Qed.

Lemma find_size_below B p b :
  1 ≤ B → Worker.sizes_below B b →
  Z.of_nat (size (default ∅ (Worker.find p b))) < B.
Proof.
  intros HB Hb. destruct (Worker.find p b) as [s|] eqn:Hf.
  - exact (find_Forall (λ s, Z.of_nat (size s) < B) p b s Hb Hf).
  - change (Z.of_nat (size (∅ : gset string)) < B). rewrite size_empty. lia.
Qed.

(** With a block size of at least one, a task keeps every group below the
    block size, and what it flushes has exactly the block size. *)
Lemma task_exact g quiet B r n p b :
  1 ≤ B → Worker.sizes_below B b →
  Worker.sizes_below B (Worker.task g quiet B r n p b).1
  ∧ Forall (λ c, Z.of_nat (length (cmd_paths c)) = B) (Worker.task g quiet B r n p b).2.
Proof.
  intros HB Hb. rewrite task_cases. simpl.
  pose proof (find_size_below B p b HB Hb) as Hold.
  pose proof (size_add_le (Worker.resolve r n) (default ∅ (Worker.find p b))) as Hle.
  destruct (Z.of_nat _ >=? B) eqn:Hge; simpl.
  - apply Z.geb_le in Hge. split.
    + apply (clear_add_Forall (λ s, Z.of_nat (size s) < B)); [done|].
      rewrite size_empty. lia.
    + apply flush_Forall; intros; simpl; rewrite length_elements; lia.
  - split; [|constructor].
    apply (add_Forall (λ s, Z.of_nat (size s) < B)); [done|].
    destruct (Z.geb_spec (Z.of_nat (size ({[Worker.resolve r n]}
      ∪ default ∅ (Worker.find p b)))) B); [done|lia].
Qed.

(** Whatever a task flushes is not empty. *)
Lemma task_nonempty g quiet B r n p b :
  Forall (λ c, cmd_paths c ≠ []) (Worker.task g quiet B r n p b).2.
Proof.
  rewrite task_cases. simpl.
  pose proof (size_add_pos (Worker.resolve r n) (default ∅ (Worker.find p b))) as Hpos.
  destruct (Z.of_nat _ >=? B); simpl; [|constructor].
  apply flush_Forall; intros; simpl; intros Hnil;
    apply (f_equal length) in Hnil; rewrite length_elements in Hnil; simpl in Hnil; lia.
Qed.

Lemma drain_nonempty g quiet b :
  Forall (λ c, cmd_paths c ≠ []) (Worker.drain g quiet b).
Proof.
  apply drain_Forall. intros [k s] _ Hne. simpl in *.
  apply flush_Forall; intros; simpl; intros Hnil; by apply elements_empty_inv in Hnil;
    apply leibniz_equiv in Hnil.
Qed.

Lemma drain_below g quiet B b :
  Worker.sizes_below B b →
  Forall (λ c, 1 ≤ Z.of_nat (length (cmd_paths c)) < B) (Worker.drain g quiet b).
Proof.
  intros Hb. apply drain_Forall. intros [k s] Hin Hne. simpl in *.
  assert (Z.of_nat (size s) < B) as Hlt.
  { unfold Worker.sizes_below in Hb. rewrite Forall_forall in Hb. exact (Hb _ Hin). }
  assert (size s ≠ 0%nat) as Hpos.
  { intros H0. apply size_empty_inv in H0. by apply leibniz_equiv in H0. }
  apply flush_Forall; intros; simpl; rewrite length_elements; lia.
Qed.

Lemma task_NoDup g quiet B r n p b :
  Forall (λ c, NoDup (cmd_paths c)) (Worker.task g quiet B r n p b).2.
Proof.
  rewrite task_cases. simpl. destruct (Z.of_nat _ >=? B); simpl; [|constructor].
  apply flush_Forall; intros; simpl; apply NoDup_elements.
Qed.

Lemma drain_NoDup g quiet b :
  Forall (λ c, NoDup (cmd_paths c)) (Worker.drain g quiet b).
Proof.
  apply drain_Forall. intros [k s] _ _. simpl.
  apply flush_Forall; intros; simpl; apply NoDup_elements.
Qed.

Lemma task_paired g quiet B r n p b :
  ∃ batches,
    (Worker.task (Some g) quiet B r n p b).2
    = flat_map (Worker.chgrp_then_chmod quiet g) batches
    ∧ Forall (λ batch, batch.2 ≠ ∅) batches.
Proof.
  assert ({[ Worker.resolve r n ]} ∪ default ∅ (Worker.find p b) ≠ (∅ : gset string))
    as Hne.
  { intros Hempty.
    pose proof (size_add_pos (Worker.resolve r n) (default ∅ (Worker.find p b))) as Hpos.
    rewrite Hempty, size_empty in Hpos. lia. }
  rewrite task_cases. simpl. destruct (Z.of_nat _ >=? B); simpl.
  - eexists [(p, _)]. split; [done|]. constructor; [exact Hne|constructor].
  - exists []. by split.
Qed.

Lemma drain_paired g quiet b :
  ∃ batches,
    Worker.drain (Some g) quiet b = flat_map (Worker.chgrp_then_chmod quiet g) batches
    ∧ Forall (λ batch, batch.2 ≠ ∅) batches.
Proof.
  induction b as [|[k s] b (batches & IH & Hne)]; simpl.
  - exists []. by split.
  - destruct (decide (s = ∅)).
    + exists batches. by rewrite IH.
    + exists ((k, s) :: batches). simpl. rewrite IH. split; [done|]. by constructor.
Qed.

End WorkerFacts.

(** ** The coordinator *)

Section Traces.

Lemma puts_of_app es1 es2 :
  Pool.puts_of (es1 ++ es2) = Pool.puts_of es1 ++ Pool.puts_of es2.
Proof. induction es1 as [|[] es1 IH]; simpl; by rewrite ?IH. Qed.

Lemma spawns_of_app es1 es2 :
  Pool.spawns_of (es1 ++ es2) = Pool.spawns_of es1 ++ Pool.spawns_of es2.
Proof. induction es1 as [|[] es1 IH]; simpl; by rewrite ?IH. Qed.

Lemma systems_of_app es1 es2 :
  systems_of (es1 ++ es2) = systems_of es1 ++ systems_of es2.
Proof. induction es1 as [|[] es1 IH]; simpl; by rewrite ?IH. Qed.

Lemma prints_only es :
  Forall (λ e, is_print e = true) es →
  Pool.spawns_of es = [] ∧ Pool.puts_of es = [] ∧ systems_of es = [].
Proof.
  induction 1 as [|e es Hp _ IH]; [done|].
  destruct e; simpl in *; done.
Qed.

Lemma puts_of_map_Put l : Pool.puts_of (map Put l) = l.
Proof. induction l as [|x l IH]; simpl; by rewrite ?IH. Qed.

Lemma spawns_of_map_Put l : Pool.spawns_of (map Put l) = [].
Proof. induction l as [|x l IH]; simpl; by rewrite ?IH. Qed.

Lemma puts_of_repeat_Spawn g q b k : Pool.puts_of (repeat (Spawn g q b) k) = [].
Proof. induction k; simpl; auto. Qed.

Lemma spawns_of_repeat_Spawn g q b k :
  Pool.spawns_of (repeat (Spawn g q b) k) = repeat (Pool.mkWorker g q b [] [] [] false) k.
Proof. induction k; simpl; by rewrite ?IHk. Qed.

Lemma puts_of_repeat_Join k : Pool.puts_of (repeat Join k) = [].
Proof. induction k; simpl; auto. Qed.

Lemma spawns_of_repeat_Join k : Pool.spawns_of (repeat Join k) = [].
Proof. induction k; simpl; auto. Qed.

Lemma map_Put_repeat k : repeat (Put Stop) k = map Put (repeat Stop k).
Proof. induction k; simpl; by rewrite ?IHk. Qed.

Lemma bind_events_Forall {A B} (P : event → Prop) (m : M A) (k : A → M B) :
  Forall P m.1 → (∀ a, Forall P (k a).1) → Forall P (m ≫= k).1.
Proof.
  destruct m as [es [a| |]]; simpl; intros Hm Hk; try done.
  specialize (Hk a). destruct (k a) as [es' r]. simpl in *.
  apply Forall_app. by split.
Qed.

Lemma parse_arg_prints E arg c :
  Forall (λ e, is_print e = true) (parse_arg E arg c).1.
Proof.
  unfold parse_arg. repeat case_match; simpl; repeat constructor.
Qed.

Lemma parse_rest_prints E args c :
  Forall (λ e, is_print e = true) (parse_rest E args c).1.
Proof.
  revert c. induction args as [|arg args IH]; intros c; simpl; [constructor|].
  apply bind_events_Forall; [apply parse_arg_prints|].
  intros [c'|]; [apply IH|constructor].
Qed.

Lemma parse_args_prints E argv :
  Forall (λ e, is_print e = true) (parse_args E argv).1.
Proof.
  unfold parse_args. destruct argv as [|a [|p rest]]; try constructor.
  apply bind_events_Forall.
  - unfold Config_init. repeat case_match; constructor.
  - intros c. apply bind_events_Forall; [|intros _; apply parse_rest_prints].
    destruct (path_exists E p); simpl; repeat constructor.
Qed.

(** The report prints nothing but its own line. *)
Lemma report_events E total :
  (report E total).1 = [] ∨ (report E total).1 = [Print (MsgReport total)].
Proof. unfold report. repeat case_match; simpl; auto. Qed.

(** [fastmod_folder] step by step: the [Using] line unless quiet, the
    workers, the tasks of the walk, one termination tuple and one [join]
    per worker, then the report. *)
Lemma fastmod_folder_trace E c :
  fastmod_folder E c =
  ((if quiet c then [] else [Print (MsgUsing (ncpus c) (blocksize c))])
     ++ repeat (Spawn (if set_group c then group c else None) (quiet c) (blocksize c))
               (Z.to_nat (ncpus c))
     ++ map Put (walk_tasks c (os_walk E (path c)))
     ++ repeat (Put Stop) (Z.to_nat (ncpus c))
     ++ repeat Join (Z.to_nat (ncpus c))
     ++ (report E (Z.of_nat (length (walk_tasks c (os_walk E (path c)))))).1,
   (report E (Z.of_nat (length (walk_tasks c (os_walk E (path c)))))).2).
Proof.
  unfold fastmod_folder, when, emits, emit, nworkers.
  destruct (report E _) as [es r].
  destruct (quiet c); destruct r; simpl; rewrite ?app_nil_r, <- ?app_assoc; reflexivity.
Qed.

(** The pool that [fastmod_folder] sets up. *)
Lemma start_fastmod_folder E c :
  Pool.start (fastmod_folder E c).1 =
  {| Pool.todo := produced c (os_walk E (path c));
     Pool.queue := [];
     Pool.workers :=
       repeat (Pool.mkWorker (if set_group c then group c else None)
                             (quiet c) (blocksize c) [] [] [] false)
              (nworkers c) |}.
Proof.
  rewrite fastmod_folder_trace. unfold Pool.start, produced, nworkers. simpl.
  assert (Pool.puts_of (report E (Z.of_nat (length (walk_tasks c (os_walk E (path c)))))).1 = []
          ∧ Pool.spawns_of
              (report E (Z.of_nat (length (walk_tasks c (os_walk E (path c)))))).1 = [])
    as [Hp Hs].
  { destruct (report_events E (Z.of_nat (length (walk_tasks c (os_walk E (path c))))))
      as [-> | ->]; done. }
  rewrite !puts_of_app, !spawns_of_app, Hp, Hs.
  rewrite puts_of_map_Put, spawns_of_map_Put, puts_of_repeat_Spawn, spawns_of_repeat_Spawn.
  rewrite puts_of_repeat_Join, spawns_of_repeat_Join.
  rewrite (map_Put_repeat (Z.to_nat (ncpus c))), puts_of_map_Put, spawns_of_map_Put.
  f_equal.
  - destruct (quiet c); simpl; by rewrite ?app_nil_r.
  - destruct (quiet c); simpl; by rewrite ?app_nil_r.
Qed.

End Traces.

(** ** The batches of a worker and the tasks it took *)

Section WorkerCoverage.

#[local] Set Warnings "-clear-no-such-hyp".

Implicit Types (b : Worker.buffer) (s : gset string) (p x : string).

Lemma keys_clear p b : map fst (Worker.clear p b) = map fst b.
Proof.
  induction b as [|[k s] b IH]; simpl; [done|].
  destruct (decide (k = p)); simpl; by rewrite ?IH.
Qed.

Lemma keys_add_elem p x b k :
  k ∈ map fst (Worker.add p x b) ↔ k = p ∨ k ∈ map fst b.
Proof.
  induction b as [|[k' s] b IH]; simpl.
  - rewrite list_elem_of_singleton. split; [auto|]. intros [?|?%not_elem_of_nil]; done.
  - destruct (decide (k' = p)) as [->|Hne]; simpl; rewrite !elem_of_cons.
    + split; [auto|]. intros [->|?]; auto.
    + rewrite IH. split; intros [?|[?|?]]; auto.
Qed.

(** The buffer keeps one entry for each permission string. *)
Lemma keys_add_NoDup p x b : NoDup (map fst b) → NoDup (map fst (Worker.add p x b)).
Proof.
  induction b as [|[k s] b IH]; simpl; intros Hb.
  - apply NoDup_singleton.
  - apply NoDup_cons in Hb as [Hk Hb].
    destruct (decide (k = p)) as [->|Hne]; simpl; apply NoDup_cons; split; auto.
    rewrite keys_add_elem. by intros [?|?].
Qed.

Lemma find_None_keys p b : p ∉ map fst b → Worker.find p b = None.
Proof.
  induction b as [|[k s] b IH]; simpl; [done|].
  rewrite not_elem_of_cons. intros [Hne Hb]. by rewrite decide_False, IH.
Qed.

Lemma find_clear p p' b :
  default ∅ (Worker.find p' (Worker.clear p b))
  = if decide (p = p') then ∅ else default ∅ (Worker.find p' b).
Proof.
  induction b as [|[k s] b IH]; simpl.
  - by destruct (decide (p = p')).
  - destruct (decide (k = p)) as [->|Hk]; simpl.
    + destruct (decide (p = p')); simpl; [done|]. done.
    + destruct (decide (k = p')) as [->|Hk']; simpl.
      * by rewrite decide_False.
      * done.
Qed.

Lemma batch_paths_app p l1 l2 : batch_paths p (l1 ++ l2) = batch_paths p l1 ++ batch_paths p l2.
Proof. apply flat_map_app. Qed.

Lemma paths_with_app p l1 l2 :
  paths_with p (l1 ++ l2) = paths_with p l1 ++ paths_with p l2.
Proof. apply flat_map_app. Qed.

Lemma batch_paths_flush p g quiet k s :
  batch_paths p (Worker.flush g quiet k s) = if decide (k = p) then elements s else [].
Proof. destruct g; simpl; destruct (decide (k = p)); by rewrite ?app_nil_r. Qed.

(** The batches of the drain hold, for each permission string, what the
    buffer holds for it. *)
Lemma batch_paths_drain p g quiet b x :
  NoDup (map fst b) →
  x ∈ batch_paths p (Worker.drain g quiet b) ↔ x ∈ default ∅ (Worker.find p b).
Proof.
  induction b as [|[k s] b IH]; simpl; intros Hb.
  - split; [by intros ?%not_elem_of_nil|by intros ?%not_elem_of_empty].
  - apply NoDup_cons in Hb as [Hk Hb].
    rewrite batch_paths_app, elem_of_app, (IH Hb).
    destruct (decide (k = p)) as [->|Hne]; simpl.
    + rewrite (find_None_keys p b Hk). simpl.
      destruct (decide (s = ∅)) as [->|Hs].
      * split; [intros [?%not_elem_of_nil|?]; done|by intros ?%not_elem_of_empty].
      * rewrite batch_paths_flush, decide_True, elem_of_elements by done.
        split; [intros [?|?%not_elem_of_empty]; done|auto].
    + destruct (decide (s = ∅)) as [->|Hs].
      * split; [intros [?%not_elem_of_nil|?]; done|auto].
      * rewrite batch_paths_flush, decide_False by done.
        split; [intros [?%not_elem_of_nil|?]; done|auto].
Qed.

(** One task keeps: what is in a batch or is buffered for a permission
    string is what the tasks taken so far carry for it. *)
Lemma task_covers g quiet B r n p0 b out seen :
  NoDup (map fst b) →
  (∀ p x, x ∈ batch_paths p out ∨ x ∈ default ∅ (Worker.find p b) ↔ x ∈ paths_with p seen) →
  NoDup (map fst (Worker.task g quiet B r n p0 b).1)
  ∧ ∀ p x,
      x ∈ batch_paths p (out ++ (Worker.task g quiet B r n p0 b).2)
      ∨ x ∈ default ∅ (Worker.find p (Worker.task g quiet B r n p0 b).1)
      ↔ x ∈ paths_with p (seen ++ [Task r n p0]).
Proof.
  intros Hb Hinv. rewrite task_cases. simpl.
  destruct (Z.of_nat _ >=? B); simpl.
  - split; [rewrite keys_clear; by apply keys_add_NoDup|].
    intros p x. rewrite batch_paths_app, paths_with_app, !elem_of_app, <- Hinv.
    rewrite batch_paths_flush, find_clear. simpl.
    destruct (decide (p0 = p)) as [->|Hne].
    + rewrite elem_of_elements, app_nil_r, list_elem_of_singleton. set_solver.
    + rewrite find_add_ne, app_nil_r by done. set_solver.
  - split; [by apply keys_add_NoDup|].
    intros p x. rewrite app_nil_r, paths_with_app, elem_of_app, <- Hinv. simpl.
    destruct (decide (p0 = p)) as [->|Hne].
    + rewrite find_add_eq, app_nil_r, list_elem_of_singleton. simpl. set_solver.
    + rewrite find_add_ne, app_nil_r by done. set_solver.
Qed.

Lemma loop_covers g quiet B ts rest :
  ∀ seen b out,
    NoDup (map fst b) →
    (∀ p x, x ∈ batch_paths p out ∨ x ∈ default ∅ (Worker.find p b)
            ↔ x ∈ paths_with p seen) →
    ∃ b' out',
      Worker.loop g quiet B (map Worker.task_of ts ++ Stop :: rest) b out = Some (b', out')
      ∧ NoDup (map fst b')
      ∧ ∀ p x, x ∈ batch_paths p out' ∨ x ∈ default ∅ (Worker.find p b')
               ↔ x ∈ paths_with p (seen ++ map Worker.task_of ts).
Proof.
  induction ts as [|[[r n] p0] ts IH]; intros seen b out Hb Hinv; simpl.
  - exists b, out. by rewrite app_nil_r.
  - destruct (task_covers g quiet B r n p0 b out seen Hb Hinv) as [Hb1 Hinv1].
    destruct (Worker.task g quiet B r n p0 b) as [b1 cmds]. simpl in *.
    destruct (IH (seen ++ [Task r n p0]) b1 (out ++ cmds) Hb1 Hinv1)
      as (b' & out' & Hloop & Hb' & Hinv').
    exists b', out'. rewrite <- app_assoc in Hinv'. done.
Qed.

(** The paths of the batches of [worker_main] for a permission string
    are those that the tasks it took carry for that string. *)
Lemma worker_main_covers g quiet B ts rest :
  ∃ out,
    Worker.worker_main g quiet B (map Worker.task_of ts ++ Stop :: rest) = Some out
    ∧ ∀ p x, x ∈ batch_paths p out ↔ x ∈ paths_with p (map Worker.task_of ts).
Proof.
  destruct (loop_covers g quiet B ts rest [] [] []) as (b & out & Hloop & Hb & Hinv).
  - constructor.
  - intros p x. simpl. split; [intros [?%not_elem_of_nil|?%not_elem_of_empty]; done|].
    by intros ?%not_elem_of_nil.
  - exists (out ++ Worker.drain g quiet b). unfold Worker.worker_main. rewrite Hloop.
    split; [done|]. intros p x.
    rewrite batch_paths_app, elem_of_app, batch_paths_drain by done. apply Hinv.
Qed.

End WorkerCoverage.

(** ** Claims about one worker *)

(** The commands of a worker with a group are batches, none of them
    empty, each one [chgrp] and then [chmod]. *)
Lemma paired_trace (g : string) (quiet : bool) (B : Z)
    (ts : list (string * string * string)) (rest : list qitem) :
  ∃ batches : list (string * gset string),
    Worker.worker_main (Some g) quiet B (map Worker.task_of ts ++ Stop :: rest)
    = Some (flat_map (Worker.chgrp_then_chmod quiet g) batches)
    ∧ Forall (λ batch, batch.2 ≠ ∅) batches.
Proof.
  destruct (loop_invariant (Some g) quiet B (λ _, True)
              (λ out, ∃ batches, out = flat_map (Worker.chgrp_then_chmod quiet g) batches
                                 ∧ Forall (λ batch, batch.2 ≠ ∅) batches))
    with (ts := ts) (rest := rest) (b := @nil (string * gset string)) (out := @nil syscmd)
    as (b & out & Hloop & _ & batches & -> & Hne).
  - intros r n p b _. split; [done|apply task_paired].
  - intros l1 l2 (b1 & -> & H1) (b2 & -> & H2). exists (b1 ++ b2).
    rewrite flat_map_app. split; [done|]. apply Forall_app. by split.
  - done.
  - exists []. by split.
  - destruct (drain_paired g quiet b) as (batches' & Hd & Hne').
    exists (batches ++ batches'). unfold Worker.worker_main.
    rewrite Hloop, Hd, flat_map_app. split; [done|]. apply Forall_app. by split.
Qed.

(** The paths of a sequence of [chgrp]/[chmod] pairs are those of its
    batches. *)
Lemma batch_paths_paired (perms g : string) (quiet : bool)
    (batches : list (string * gset string)) (x : string) :
  x ∈ batch_paths perms (flat_map (Worker.chgrp_then_chmod quiet g) batches)
  ↔ ∃ s, (perms, s) ∈ batches ∧ x ∈ s.
Proof.
  induction batches as [|[k s] batches IH].
  - split; [by intros ?%not_elem_of_nil|by intros (s & ?%not_elem_of_nil & _)].
  - change (flat_map (Worker.chgrp_then_chmod quiet g) ((k, s) :: batches))
      with (Worker.chgrp_then_chmod quiet g (k, s)
              ++ flat_map (Worker.chgrp_then_chmod quiet g) batches).
    rewrite batch_paths_app, elem_of_app, IH. unfold Worker.chgrp_then_chmod. simpl.
    destruct (decide (k = perms)) as [->|Hne].
    + rewrite app_nil_r, elem_of_elements. split.
      * intros [Hx|(s' & Hin & Hx)]; [exists s; split; [left|done]|].
        exists s'. split; [by right|done].
      * intros (s' & Hin & Hx). apply elem_of_cons in Hin as [Heq|Hin].
        -- injection Heq as <-. by left.
        -- right. by exists s'.
    + split.
      * intros [Hx%not_elem_of_nil|(s' & Hin & Hx)]; [done|].
        exists s'. split; [by right|done].
      * intros (s' & Hin & Hx). apply elem_of_cons in Hin as [Heq|Hin].
        -- injection Heq as ? _. by subst.
        -- right. by exists s'.
Qed.

(** C2. Every worker of a run is started with the group of the
    configuration when a group is to be set (and with none otherwise). When
    a group is set, what a worker runs is, batch after batch, the [chgrp]
    of the batch's paths immediately followed by the [chmod] of the same
    paths, for the batches flushed in the loop and for those of the drain
    alike. These batches are the work of the worker: none is empty, and
    for every permission string their paths are exactly the resolved paths
    of the tasks the worker took with that string. *)
Theorem chgrp_before_chmod_in_every_batch
    (g : string) (quiet : bool) (B : Z)
    (ts : list (string * string * string)) (rest : list qitem) :
  (∀ E c, Forall (λ w, Pool.w_group w = if set_group c then group c else None)
                 (Pool.workers (Pool.start (fastmod_folder E c).1)))
  ∧ (∀ perms s,
       Worker.flush (Some g) quiet perms s
       = [Chgrp quiet g (elements s); Chmod quiet perms (elements s)])
  ∧ ∃ batches : list (string * gset string),
      Worker.worker_main (Some g) quiet B (map Worker.task_of ts ++ Stop :: rest)
      = Some (flat_map (Worker.chgrp_then_chmod quiet g) batches)
      ∧ Forall (λ batch, batch.2 ≠ ∅) batches
      ∧ ∀ perms path,
          (∃ s, (perms, s) ∈ batches ∧ path ∈ s)
          ↔ path ∈ paths_with perms (map Worker.task_of ts).
Proof.
  split; [|split; [done|]].
  - intros E c. rewrite start_fastmod_folder. simpl.
    apply Forall_forall. intros w Hw%list_elem_of_In%repeat_spec. by subst.
  - destruct (paired_trace g quiet B ts rest) as (batches & Hmain & Hne).
    destruct (worker_main_covers (Some g) quiet B ts rest) as (out & Hout & Hcovers).
    rewrite Hmain in Hout. injection Hout as <-.
    exists batches. split; [done|]. split; [done|].
    intros perms path. by rewrite <- Hcovers, batch_paths_paired.
Qed.

(** With a block size of at least one the loop flushes batches of
    exactly the block size and leaves every group below it. *)
Lemma loop_exact (g : option string) (quiet : bool) (B : Z)
    (ts : list (string * string * string)) (rest : list qitem) :
  1 ≤ B →
  ∃ b mid,
    Worker.loop g quiet B (map Worker.task_of ts ++ Stop :: rest) [] [] = Some (b, mid)
    ∧ Forall (λ c, Z.of_nat (length (cmd_paths c)) = B) mid
    ∧ Worker.sizes_below B b.
Proof.
  intros HB.
  destruct (loop_invariant g quiet B (Worker.sizes_below B)
              (Forall (λ c, Z.of_nat (length (cmd_paths c)) = B)))
    with (ts := ts) (rest := rest) (b := @nil (string * gset string)) (out := @nil syscmd)
    as (b & mid & Hloop & Hb & Hmid).
  - intros r n p b Hb. by apply task_exact.
  - intros l1 l2 H1 H2. apply Forall_app. by split.
  - constructor.
  - constructor.
  - by exists b, mid.
Qed.

(** Before the block size is reached a task only buffers its path. *)
Lemma task_buffers_below_blocksize g quiet B r n p b :
  Z.of_nat (size ({[ Worker.resolve r n ]} ∪ default ∅ (Worker.find p b))) < B →
  Worker.task g quiet B r n p b = (Worker.add p (Worker.resolve r n) b, []).
Proof.
  intros Hsize. rewrite task_cases. simpl.
  destruct (Z.geb_spec (Z.of_nat (size ({[Worker.resolve r n]}
    ∪ default ∅ (Worker.find p b)))) B); [lia|done].
Qed.

(** A permission string whose tasks carry at least the block size of
    distinct paths cannot sit in the buffer alone: the loop has flushed
    it. *)
Lemma flushed_when_enough (B : Z) (perms : string) (b : Worker.buffer)
    (mid : list syscmd) (tasks : list qitem) :
  Worker.sizes_below B b → 1 ≤ B →
  (∀ x, x ∈ batch_paths perms mid ∨ x ∈ default ∅ (Worker.find perms b)
        ↔ x ∈ paths_with perms tasks) →
  B ≤ Z.of_nat (size (list_to_set (paths_with perms tasks) : gset string)) →
  batch_paths perms mid ≠ [].
Proof.
  intros Hb HB Hcovers Hmany Hnil.
  pose proof (find_size_below B perms b HB Hb) as Hsmall.
  assert ((list_to_set (paths_with perms tasks) : gset string)
          ⊆ default ∅ (Worker.find perms b)) as Hsub.
  { intros x Hx%elem_of_list_to_set. apply Hcovers in Hx as [Hx|Hx]; [|done].
    rewrite Hnil in Hx. by apply not_elem_of_nil in Hx. }
  apply subseteq_size in Hsub. lia.
Qed.

(** C5. With a block size [B] of at least one, a task that brings its
    group to [B] paths clears the group and runs the commands on these [B]
    paths in the same iteration, and a task that leaves its group below [B]
    runs nothing. So, on every stream: each batch flushed inside the loop
    has exactly [B] paths; every path of a task taken is in such a batch or
    still in the buffer when the loop ends, in the group of its permission
    string; every group of the buffer is then smaller than [B], so a
    permission string that came with [B] distinct paths or more has been
    flushed in the loop; and the drain, which alone runs smaller batches,
    runs batches of 1 to [B - 1] paths. *)
Theorem flush_at_exactly_blocksize
    (g : option string) (quiet : bool) (B : Z)
    (ts : list (string * string * string)) (rest : list qitem) :
  1 ≤ B →
  (∃ b mid,
    Worker.loop g quiet B (map Worker.task_of ts ++ Stop :: rest) [] [] = Some (b, mid)
    ∧ Worker.worker_main g quiet B (map Worker.task_of ts ++ Stop :: rest)
      = Some (mid ++ Worker.drain g quiet b)
    ∧ Forall (λ c, Z.of_nat (length (cmd_paths c)) = B) mid
    ∧ Worker.sizes_below B b
    ∧ Forall (λ c, 1 ≤ Z.of_nat (length (cmd_paths c)) < B) (Worker.drain g quiet b)
    ∧ (∀ perms path,
         path ∈ batch_paths perms mid ∨ path ∈ default ∅ (Worker.find perms b)
         ↔ path ∈ paths_with perms (map Worker.task_of ts))
    ∧ (∀ perms,
         B ≤ Z.of_nat (size (list_to_set (paths_with perms (map Worker.task_of ts))
                               : gset string)) →
         batch_paths perms mid ≠ []))
  ∧ (∀ root name perms b,
       Z.of_nat (size ({[ Worker.resolve root name ]}
                         ∪ default ∅ (Worker.find perms b))) = B →
       Worker.task g quiet B root name perms b
       = (Worker.clear perms (Worker.add perms (Worker.resolve root name) b),
          let paths := elements ({[ Worker.resolve root name ]}
                                   ∪ default ∅ (Worker.find perms b)) in
          match g with
          | Some grp => [Chgrp quiet grp paths; Chmod quiet perms paths]
          | None => [Chmod quiet perms paths]
          end))
  ∧ (∀ root name perms b,
       Z.of_nat (size ({[ Worker.resolve root name ]}
                         ∪ default ∅ (Worker.find perms b))) < B →
       Worker.task g quiet B root name perms b
       = (Worker.add perms (Worker.resolve root name) b, [])).
Proof.
  intros HB. split; [|split].
  - destruct (loop_exact g quiet B ts rest HB) as (b & mid & Hloop & Hmid & Hb).
    destruct (loop_covers g quiet B ts rest [] [] []) as (b' & mid' & Hloop' & _ & Hcovers).
    { constructor. }
    { intros p x. simpl. split; [intros [?%not_elem_of_nil|?%not_elem_of_empty]; done|].
      by intros ?%not_elem_of_nil. }
    rewrite Hloop in Hloop'. injection Hloop' as <- <-. simpl in Hcovers.
    exists b, mid. unfold Worker.worker_main. rewrite Hloop.
    split; [done|]. split; [done|]. split; [done|]. split; [done|].
    split; [by apply drain_below|]. split; [exact Hcovers|].
    intros perms. apply (flushed_when_enough B perms b mid); auto.
  - intros root name perms b Hsize. rewrite task_cases. cbv zeta.
    destruct (Z.geb_spec (Z.of_nat (size ({[Worker.resolve root name]}
      ∪ default ∅ (Worker.find perms b)))) B); [|lia].
    by destruct g.
  - intros. by apply task_buffers_below_blocksize.
Qed.

Lemma flush_at_exactly_blocksize_witness :
  1 ≤ 2 ∧
  ∃ b mid,
    Worker.loop None false 2
      (map Worker.task_of [("d", ".", "p"); ("d", "a", "p"); ("d", "b", "p")] ++ [Stop])
      [] [] = Some (b, mid)
    ∧ Worker.worker_main None false 2
        (map Worker.task_of [("d", ".", "p"); ("d", "a", "p"); ("d", "b", "p")] ++ [Stop])
      = Some (mid ++ Worker.drain None false b)
    ∧ Forall (λ c, Z.of_nat (length (cmd_paths c)) = 2) mid
    ∧ Worker.sizes_below 2 b
    ∧ Forall (λ c, 1 ≤ Z.of_nat (length (cmd_paths c)) < 2) (Worker.drain None false b)
    ∧ (∀ perms path,
         path ∈ batch_paths perms mid ∨ path ∈ default ∅ (Worker.find perms b)
         ↔ path ∈ paths_with perms
                    (map Worker.task_of [("d", ".", "p"); ("d", "a", "p"); ("d", "b", "p")]))
    ∧ (∀ perms,
         2 ≤ Z.of_nat (size (list_to_set
                               (paths_with perms
                                  (map Worker.task_of
                                     [("d", ".", "p"); ("d", "a", "p"); ("d", "b", "p")]))
                               : gset string)) →
         batch_paths perms mid ≠ []).
Proof.
  split; [lia|].
  apply (flush_at_exactly_blocksize None false 2
           [("d", ".", "p"); ("d", "a", "p"); ("d", "b", "p")] []).
  lia.
Defined.

(** C6, as the code has it. No batch of a worker, flushed in the loop or
    by the drain, is empty, whatever the block size. With a block size [B]
    of at least one, no batch flushed in the loop has more than [B] paths
    and no group is left in the buffer with [B] paths or more. *)
Theorem no_empty_flush_and_no_overfull_group
    (g : option string) (quiet : bool) (B : Z)
    (ts : list (string * string * string)) (rest : list qitem) :
  ∃ b mid,
    Worker.loop g quiet B (map Worker.task_of ts ++ Stop :: rest) [] [] = Some (b, mid)
    ∧ Worker.worker_main g quiet B (map Worker.task_of ts ++ Stop :: rest)
      = Some (mid ++ Worker.drain g quiet b)
    ∧ Forall (λ c, cmd_paths c ≠ []) (mid ++ Worker.drain g quiet b)
    ∧ (1 ≤ B →
       Forall (λ c, Z.of_nat (length (cmd_paths c)) ≤ B) mid
       ∧ Worker.sizes_below B b).
Proof.
  destruct (loop_invariant g quiet B (λ _, True) (Forall (λ c, cmd_paths c ≠ [])))
    with (ts := ts) (rest := rest) (b := @nil (string * gset string)) (out := @nil syscmd)
    as (b & mid & Hloop & _ & Hmid).
  - intros r n p b _. split; [done|apply task_nonempty].
  - intros l1 l2 H1 H2. apply Forall_app. by split.
  - done.
  - constructor.
  - exists b, mid. unfold Worker.worker_main. rewrite Hloop.
    split; [done|]. split; [done|]. split.
    + apply Forall_app. split; [done|apply drain_nonempty].
    + intros HB.
      destruct (loop_exact g quiet B ts rest HB)
        as (b' & mid' & Hloop' & Hexact & Hbelow).
      rewrite Hloop in Hloop'. injection Hloop' as <- <-.
      split; [|done]. eapply Forall_impl; [exact Hexact|]. simpl. intros c Hc. lia.
Qed.

Lemma no_empty_flush_and_no_overfull_group_witness :
  ∃ b mid,
    Worker.loop (Some "users") true 1 (map Worker.task_of [("d", ".", "p")] ++ [Stop]) [] []
    = Some (b, mid)
    ∧ Forall (λ c, cmd_paths c ≠ []) (mid ++ Worker.drain (Some "users") true b)
    ∧ Forall (λ c, Z.of_nat (length (cmd_paths c)) ≤ 1) mid
    ∧ Worker.sizes_below 1 b.
Proof.
  destruct (no_empty_flush_and_no_overfull_group (Some "users") true 1 [("d", ".", "p")] [])
    as (b & mid & Hloop & _ & Hne & Hbound).
  exists b, mid. destruct Hbound as [Hmid Hb]; [lia|]. auto.
Defined.

(** With a block size of zero, which [-B0] gives, the loop flushes a
    group that holds one path: more than the block size. *)
Lemma zero_blocksize_flushes_above_it :
  ∃ b c,
    Worker.loop None false 0 (map Worker.task_of [("d", ".", "p")] ++ [Stop]) [] []
    = Some (b, [c])
    ∧ Z.of_nat (length (cmd_paths c)) = 1
    ∧ ¬ (Z.of_nat (length (cmd_paths c)) ≤ 0).
Proof.
  eexists _, (Chmod false "p" ["d"]). split; [vm_compute; reflexivity|].
  split; [reflexivity|]. simpl. lia.
Qed.

(** C7. A group never holds a path twice: adding a path that the group
    already holds leaves the buffer as it is, and no group of the buffer
    and no batch handed to a command lists a path more than once. *)
Theorem group_holds_each_path_once
    (g : option string) (quiet : bool) (B : Z)
    (ts : list (string * string * string)) (rest : list qitem) :
  (∀ perms path b,
     Worker.add perms path (Worker.add perms path b) = Worker.add perms path b)
  ∧ ∃ b mid,
      Worker.loop g quiet B (map Worker.task_of ts ++ Stop :: rest) [] [] = Some (b, mid)
      ∧ Worker.worker_main g quiet B (map Worker.task_of ts ++ Stop :: rest)
        = Some (mid ++ Worker.drain g quiet b)
      ∧ Forall (λ ks, NoDup (elements ks.2)) b
      ∧ Forall (λ c, NoDup (cmd_paths c)) (mid ++ Worker.drain g quiet b).
Proof.
  split; [apply add_add|].
  destruct (loop_invariant g quiet B (Forall (λ ks, NoDup (elements ks.2)))
              (Forall (λ c, NoDup (cmd_paths c))))
    with (ts := ts) (rest := rest) (b := @nil (string * gset string)) (out := @nil syscmd)
    as (b & mid & Hloop & Hb & Hmid).
  - intros r n p b _. split; [|apply task_NoDup].
    apply Forall_forall. intros ks _. apply NoDup_elements.
  - intros l1 l2 H1 H2. apply Forall_app. by split.
  - constructor.
  - constructor.
  - exists b, mid. unfold Worker.worker_main. rewrite Hloop.
    repeat split; auto. apply Forall_app. split; [done|apply drain_NoDup].
Qed.

(** Two copies of the same task make one path of one batch. *)
Example same_task_twice :
  Worker.worker_main None false 128 [Task "d" "f" "p"; Task "d" "f" "p"; Stop]
  = Some [Chmod false "p" ["d/f"]].
Proof. vm_compute. reflexivity. Qed.

(** ** Claims about the coordinator *)

(** C3, as the code has it. Neither the block size nor the worker count is
    validated: [-B] and [-C] store whatever integer they are given, and
    [fastmod_folder] runs with any configuration; it starts
    [max(0, ncpus)] workers with the configured block size, puts every
    task of the walk and [max(0, ncpus)] termination tuples on the queue,
    joins the workers and reaches the report. *)
Theorem block_size_and_worker_count_are_not_validated (E : Env) (c : Config) :
  (∀ s n, py_int E s = Some n →
     parse_arg E ("-B" +:+ s) c
     = ([], Ret (Some {| path := path c; perms_fil := perms_fil c;
                         perms_dir := perms_dir c; group := group c;
                         set_group := set_group c; ncpus := ncpus c;
                         blocksize := n; quiet := quiet c |}))
     ∧ parse_arg E ("-C" +:+ s) c
       = ([], Ret (Some {| path := path c; perms_fil := perms_fil c;
                           perms_dir := perms_dir c; group := group c;
                           set_group := set_group c; ncpus := n;
                           blocksize := blocksize c; quiet := quiet c |})))
  ∧ fastmod_folder E c =
    ((if quiet c then [] else [Print (MsgUsing (ncpus c) (blocksize c))])
       ++ repeat (Spawn (if set_group c then group c else None) (quiet c) (blocksize c))
                 (Z.to_nat (ncpus c))
       ++ map Put (walk_tasks c (os_walk E (path c)))
       ++ repeat (Put Stop) (Z.to_nat (ncpus c))
       ++ repeat Join (Z.to_nat (ncpus c))
       ++ (report E (Z.of_nat (length (walk_tasks c (os_walk E (path c)))))).1,
     (report E (Z.of_nat (length (walk_tasks c (os_walk E (path c)))))).2).
Proof.
  split; [|apply fastmod_folder_trace].
  intros s n Hint. unfold parse_arg.
  change ("-B" +:+ s) with (String "-" (String "B" s)).
  change ("-C" +:+ s) with (String "-" (String "C" s)).
  simpl. rewrite Hint.
  assert (String.prefix "" s = true) as -> by (by destruct s).
  done.
Qed.

Lemma block_size_and_worker_count_are_not_validated_witness :
  py_int sample_env "0" = Some 0
  ∧ parse_arg sample_env "-B0"
      (mkConfig "d" "a-w" "a-w" None false 3 128 false)
    = ([], Ret (Some (mkConfig "d" "a-w" "a-w" None false 3 0 false)))
  ∧ parse_arg sample_env "-C0"
      (mkConfig "d" "a-w" "a-w" None false 3 128 false)
    = ([], Ret (Some (mkConfig "d" "a-w" "a-w" None false 0 128 false))).
Proof.
  split; [reflexivity|].
  exact (proj1 (block_size_and_worker_count_are_not_validated sample_env
                  (mkConfig "d" "a-w" "a-w" None false 3 128 false))
               "0" 0 eq_refl).
Defined.

(** A block size of zero and a worker count of zero are both accepted:
    the run spawns workers (or none), enqueues the tasks and ends with
    status 0. *)
Lemma zero_block_size_and_zero_workers_run :
  script sample_env ["fastmod"; "d"; "-C2"; "-B0"; "-q"]
  = ([Spawn None true 0; Spawn None true 0;
      Put (Task "d" "." "u+rwx,g+rxs-w,o+rx-w");
      Put (Task "d" "f" "u+rw,g+r-w,o+r-w");
      Put Stop; Put Stop; Join; Join; Print (MsgReport 2)], 0)
  ∧ script sample_env ["fastmod"; "d"; "-C0"; "-q"]
    = ([Put (Task "d" "." "u+rwx,g+rxs-w,o+rx-w");
        Put (Task "d" "f" "u+rw,g+r-w,o+r-w"); Print (MsgReport 2)], 0).
Proof. split; vm_compute; reflexivity. Qed.

(** C4, on the code: with no task at all the report divides by zero. The
    report raises [ZeroDivisionError] for a total of zero in every
    environment, and a run on a directory whose walk yields nothing ends
    with that exception, the report line unprinted. *)
Theorem report_divides_by_zero_tasks :
  (∀ E, report E 0 = ([], Raise ZeroDivisionError))
  ∧ main unlistable_env ["fastmod"; "d"; "-q"; "-C1"]
    = ([Spawn None true 128; Put Stop; Join], Raise ZeroDivisionError)
  ∧ script unlistable_env ["fastmod"; "d"; "-q"; "-C1"]
    = ([Spawn None true 128; Put Stop; Join], 1).
Proof. split; [done|]. split; vm_compute; reflexivity. Qed.




(** C9. When [parse_args] yields a configuration whose path is not a
    directory, the run spawns no worker and puts nothing on the queue; it
    runs [chmod] once on the path and, exactly when a group is to be set,
    [chgrp] once on the path, and ends with status 0. *)
Theorem single_file_bypasses_the_pool
    (E : Env) (argv : list string) (es0 : list event) (c : Config) :
  parse_args E argv = (es0, Ret (Some c)) →
  path_isdir E (path c) = false →
  ∃ es,
    script E argv = (es, 0)
    ∧ Pool.spawns_of es = [] ∧ Pool.puts_of es = []
    ∧ systems_of es
      = Chmod false (perms_fil c) [path c]
          :: (if set_group c then [Chgrp false (fmt_group (group c)) [path c]] else []).
Proof.
  intros Hparse Hdir.
  pose proof (parse_args_prints E argv) as Hprints. rewrite Hparse in Hprints.
  apply prints_only in Hprints as (Hs0 & Hp0 & Hy0). simpl in *.
  destruct argv as [|a [|p rest]]; try discriminate.
  unfold script, main. rewrite Hparse. unfold mbind, M_bind. cbv beta iota.
  rewrite Hdir. unfold fastmod_file, when, emit.
  destruct (quiet c), (set_group c); simpl; eexists; (split; [reflexivity|]);
    rewrite ?puts_of_app, ?spawns_of_app, ?systems_of_app, ?Hs0, ?Hp0, ?Hy0; simpl; auto.
Qed.

Lemma single_file_bypasses_the_pool_witness :
  ∃ es,
    script sample_env ["fastmod"; "x"; "-Gstaff"; "a+x"] = (es, 0)
    ∧ Pool.spawns_of es = [] ∧ Pool.puts_of es = []
    ∧ systems_of es = [Chmod false "a+x" ["x"]; Chgrp false "staff" ["x"]].
Proof.
  exact (single_file_bypasses_the_pool sample_env ["fastmod"; "x"; "-Gstaff"; "a+x"] []
           (mkConfig "x" "a+x" "a+x" (Some "staff") true 3 128 false)
           eq_refl eq_refl).
Defined.

(** C10. For a single file with a group to set, [chmod] runs first and
    [chgrp] second; a batch of a worker has them the other way round. *)
Theorem single_file_chmod_before_chgrp (c : Config) :
  set_group c = true →
  fastmod_file c
  = ([System (Chmod false (perms_fil c) [path c]);
      System (Chgrp false (fmt_group (group c)) [path c]); Print MsgDone],
     Ret tt)
  ∧ ∀ g quiet perms buffered,
      Worker.flush (Some g) quiet perms buffered
      = [Chgrp quiet g (elements buffered); Chmod quiet perms (elements buffered)].
Proof.
  intros Hg. split; [|done]. unfold fastmod_file, when. by rewrite Hg.
Qed.

Lemma single_file_chmod_before_chgrp_witness :
  fastmod_file (mkConfig "x" "a+x" "a+x" (Some "staff") true 3 128 false)
  = ([System (Chmod false "a+x" ["x"]);
      System (Chgrp false "staff" ["x"]); Print MsgDone], Ret tt).
Proof.
  exact (proj1 (single_file_chmod_before_chgrp
                  (mkConfig "x" "a+x" "a+x" (Some "staff") true 3 128 false) eq_refl)).
Defined.

(** ** Paths of a tree *)

Section Strings.

#[local] Arguments String.append : simpl nomatch.

Lemma append_empty_r s : s +:+ "" = s.
Proof. induction s; simpl; congruence. Qed.

Lemma append_assoc a b c : (a +:+ b) +:+ c = a +:+ (b +:+ c).
Proof. induction a; simpl; congruence. Qed.

Lemma append_eq_empty a b : a +:+ b = "" → a = "" ∧ b = "".
Proof. destruct a; simpl; [done|discriminate]. Qed.

(** A name without slash is the first component of what it starts. *)
Lemma component_inj d d' x y :
  contains FS.slash d = false → contains FS.slash d' = false →
  FS.rooted x → FS.rooted y →
  d +:+ x = d' +:+ y → d = d' ∧ x = y.
Proof.
  revert d'. induction d as [|a d IH]; intros [|a' d'] Hd Hd' Hx Hy Heq; simpl in *.
  - done.
  - destruct Hx as [->|[z ->]]; [done|]. injection Heq as <- _.
    by rewrite decide_True in Hd'.
  - destruct Hy as [->|[z ->]]; [done|]. injection Heq as -> _.
    by rewrite decide_True in Hd.
  - injection Heq as <- Heq.
    destruct (decide (a = FS.slash)); [done|].
    destruct (IH d' Hd Hd' Hx Hy Heq) as [-> ->]. done.
Qed.

Lemma ends_with_slash_cons a r :
  r ≠ "" → FS.ends_with_slash (String a r) = FS.ends_with_slash r.
Proof. by destruct r. Qed.

Lemma ends_with_slash_append x d :
  d ≠ "" → FS.ends_with_slash (x +:+ d) = FS.ends_with_slash d.
Proof.
  intros Hd. induction x as [|a x IH]; [done|].
  change (String a x +:+ d) with (String a (x +:+ d)).
  rewrite ends_with_slash_cons; [done|].
  intros [_ ?]%append_eq_empty. done.
Qed.

Lemma no_slash_no_end d : contains FS.slash d = false → FS.ends_with_slash d = false.
Proof.
  induction d as [|a d IH]; simpl; [done|].
  destruct (decide (a = FS.slash)); [done|]. intros Hd.
  destruct d; [by apply bool_decide_eq_false_2|auto].
Qed.

Lemma valid_name_inv d :
  FS.valid_name d = true → d ≠ "" ∧ d ≠ "." ∧ contains FS.slash d = false.
Proof.
  unfold FS.valid_name. rewrite !andb_true_iff, !negb_true_iff.
  intros [[[H1 H2] _] H3].
  apply bool_decide_eq_false in H1. apply bool_decide_eq_false in H2. done.
Qed.

Lemma join_valid top d :
  FS.valid_name d = true → FS.join top d = top +:+ FS.sep_of top +:+ d.
Proof.
  intros (Hne & _ & Hns)%valid_name_inv. unfold FS.join, FS.sep_of.
  assert (String.prefix "/" d = false) as ->.
  { destruct d as [|a d]; [done|].
    assert (a ≠ FS.slash) as Ha.
    { intros ->. simpl in Hns. discriminate. }
    change (String.prefix "/" (String a d))
      with (if ascii_dec "/" a then String.prefix "" d else false).
    destruct (ascii_dec "/" a) as [Heq|]; [|done]. by subst. }
  by destruct (bool_decide (top = "") || FS.ends_with_slash top).
Qed.

(** Below the root, the path of a directory never ends with a slash. *)
Lemma sep_of_child top sep d :
  FS.valid_name d = true → FS.sep_of (top +:+ sep +:+ d) = "/".
Proof.
  intros (Hne & _ & Hns)%valid_name_inv. unfold FS.sep_of.
  rewrite <- append_assoc, ends_with_slash_append, (no_slash_no_end _ Hns) by done.
  rewrite bool_decide_eq_false_2; [done|].
  intros [_ ?]%append_eq_empty. done.
Qed.

Lemma resolve_file root f :
  FS.valid_name f = true → Worker.resolve root f = root +:+ "/" +:+ f.
Proof.
  intros (_ & Hdot & _)%valid_name_inv. unfold Worker.resolve. by rewrite decide_False.
Qed.

End Strings.

Section Trees.

#[local] Arguments String.append : simpl nomatch.

(** Induction on a tree, with the hypothesis for every subdirectory. *)
Lemma tree_ind' (P : FS.tree → Prop) :
  (∀ files subdirs, Forall (λ ds, P ds.2) subdirs → P (FS.Dir files subdirs)) →
  ∀ t, P t.
Proof.
  intros H. fix IH 1. intros [files subdirs]. apply H.
  induction subdirs as [|[d s] subdirs IHs]; constructor; [apply IH|apply IHs].
Qed.

Lemma valid_inv files subs :
  FS.valid (FS.Dir files subs) = true →
  Forall (λ n, FS.valid_name n = true) (files ++ map fst subs)
  ∧ NoDup (files ++ map fst subs)
  ∧ Forall (λ ds, FS.valid ds.2 = true) subs.
Proof.
  simpl. rewrite !andb_true_iff. intros [[H1 H2] H3]. repeat split.
  - apply Forall_forall. intros n Hn. rewrite forallb_forall in H1.
    apply H1. by apply list_elem_of_In.
  - by apply bool_decide_eq_true in H2.
  - apply Forall_forall. intros [d s] Hds. rewrite forallb_forall in H3.
    apply list_elem_of_In in Hds. exact (H3 _ Hds).
Qed.

Lemma walk_tasks_app c l1 l2 :
  walk_tasks c (l1 ++ l2) = walk_tasks c l1 ++ walk_tasks c l2.
Proof. apply flat_map_app. Qed.

Lemma paths_of_app l1 l2 : paths_of (l1 ++ l2) = paths_of l1 ++ paths_of l2.
Proof. induction l1 as [|[] l1 IH]; simpl; by rewrite ?IH. Qed.

(** The walk yields one task per directory and one per file. *)
Lemma walk_tasks_length c t :
  ∀ top, length (walk_tasks c (FS.walk top t)) = (FS.nfiles t + FS.ndirs t)%nat.
Proof.
  induction t as [files subs IH] using tree_ind'. intros top.
  change (FS.walk top (FS.Dir files subs))
    with ((top, map fst subs, files)
            :: flat_map (λ '(d, s), FS.walk (FS.join top d) s) subs).
  change (walk_tasks c (?e :: ?l)) with (entry_tasks c e ++ walk_tasks c l).
  rewrite length_app. simpl entry_tasks. simpl length. rewrite length_map.
  assert (length (walk_tasks c (flat_map (λ '(d, s), FS.walk (FS.join top d) s) subs))
          = (list_sum (map (λ '(_, s), FS.nfiles s) subs)
             + list_sum (map (λ '(_, s), FS.ndirs s) subs))%nat) as ->.
  { induction subs as [|[d s] subs IHs]; [done|].
    inversion IH as [|? ? Hs Hrest]; subst. simpl in Hs.
    simpl. rewrite walk_tasks_app, length_app, Hs, (IHs Hrest). lia. }
  simpl. lia.
Qed.

Lemma suffixes_rooted t : Forall FS.rooted (FS.suffixes t).
Proof.
  destruct t as [files subs]. simpl. constructor; [by left|].
  apply Forall_app. split.
  - apply Forall_forall. intros x [f [<- _]]%list_elem_of_In%in_map_iff.
    right. by exists f.
  - apply Forall_flat_map, Forall_forall. intros [d s] _.
    apply Forall_forall. intros x [y [<- _]]%list_elem_of_In%in_map_iff.
    right. by exists (d +:+ y).
Qed.

Lemma NoDup_flat_map_keys {A K B} (key : A → K) (f : A → list B) (l : list A) :
  NoDup (map key l) →
  (∀ a, In a l → NoDup (f a)) →
  (∀ a a' x, In a l → In a' l → In x (f a) → In x (f a') → key a = key a') →
  NoDup (flat_map f l).
Proof.
  induction l as [|a l IH]; simpl; intros Hk Hf Hdisj; [constructor|].
  apply NoDup_cons in Hk as [Hnotin Hk'].
  apply NoDup_app. split; [apply Hf; by left|]. split.
  - intros x Hx Hx2. apply list_elem_of_In in Hx, Hx2.
    apply in_flat_map in Hx2 as [a' [Ha' Hx']]. apply Hnotin.
    rewrite (Hdisj a a' x); [|by left|by right|done|done].
    by apply list_elem_of_In, in_map.
  - apply IH; [done|intros; apply Hf; by right|].
    intros a1 a2 x H1 H2. apply Hdisj; by right.
Qed.

(** The relative paths of a valid directory are pairwise distinct. *)
Lemma rel_paths_NoDup sep files subs :
  sep = "" ∨ sep = "/" →
  Forall (λ n, FS.valid_name n = true) (files ++ map fst subs) →
  NoDup (files ++ map fst subs) →
  Forall (λ ds, NoDup (FS.suffixes ds.2)) subs →
  NoDup (FS.rel_paths sep (FS.Dir files subs)).
Proof.
  intros Hsep Hnames Hnd Hsubs.
  apply Forall_app in Hnames as [Hfiles Hdirs].
  apply NoDup_app in Hnd as (Hndf & Hfd & Hndd).
  assert (∀ d s, In (d, s) subs →
            d ≠ "" ∧ contains FS.slash d = false ∧ NoDup (FS.suffixes s)) as Hsub.
  { intros d s Hin. rewrite Forall_forall in Hdirs. rewrite Forall_forall in Hsubs.
    destruct (valid_name_inv d) as (? & _ & ?).
    - apply Hdirs, list_elem_of_In. by apply (in_map fst _ (d, s)).
    - repeat split; auto. apply (Hsubs (d, s)). by apply list_elem_of_In. }
  assert (∀ f, In f files → contains FS.slash f = false) as Hfile.
  { intros f Hin. rewrite Forall_forall in Hfiles.
    destruct (valid_name_inv f) as (_ & _ & ?); [|done].
    by apply Hfiles, list_elem_of_In. }
  assert (∀ s x, In x (FS.suffixes s) → FS.rooted x) as Hroot.
  { intros s x Hin. pose proof (suffixes_rooted s) as Hr.
    rewrite Forall_forall in Hr. by apply Hr, list_elem_of_In. }
  unfold FS.rel_paths. apply NoDup_cons. split.
  - rewrite list_elem_of_In, in_app_iff, in_map_iff, in_flat_map.
    intros [[f [Hf _]]|[[d s] [Hin Hx]]]; [discriminate|].
    apply in_map_iff in Hx as [x [Hx _]].
    apply append_eq_empty in Hx as [_ [Hd _]%append_eq_empty].
    by destruct (Hsub d s Hin).
  - apply NoDup_app. split; [|split].
    + change (NoDup (String.append "/" <$> files)). by apply (NoDup_fmap_2 _).
    + intros x [f [<- Hf]]%list_elem_of_In%in_map_iff
        [[d s] [Hin Hx]]%list_elem_of_In%in_flat_map.
      apply in_map_iff in Hx as [y [Heq Hy]].
      destruct (Hsub d s Hin) as (Hne & Hd & _).
      destruct Hsep as [-> | ->].
      * destruct d as [|a d]; [done|]. simpl in Heq. injection Heq as -> _.
        simpl in Hd. discriminate.
      * apply (inj (String.append "/")) in Heq.
        rewrite <- (append_empty_r f) in Heq.
        destruct (component_inj d f y "" Hd (Hfile f Hf) (Hroot s y Hy)
                    (or_introl eq_refl) Heq) as [-> _].
        apply (Hfd f); [by apply list_elem_of_In|].
        apply list_elem_of_In. by apply (in_map fst _ (f, s)).
    + apply (NoDup_flat_map_keys fst).
      * done.
      * intros [d s] Hin. destruct (Hsub d s Hin) as (_ & _ & Hs).
        change (NoDup ((λ x, sep +:+ d +:+ x) <$> FS.suffixes s)).
        apply NoDup_fmap_2_strong; [|done].
        intros x y _ _ Heq.
        by apply (inj (String.append sep)), (inj (String.append d)) in Heq.
      * intros [d s] [d' s'] x Hin Hin' Hx Hx'. simpl.
        apply in_map_iff in Hx as [y [<- Hy]].
        apply in_map_iff in Hx' as [y' [Heq Hy']].
        apply (inj (String.append sep)) in Heq.
        destruct (Hsub d s Hin) as (_ & Hd & _).
        destruct (Hsub d' s' Hin') as (_ & Hd' & _).
        by destruct (component_inj d d' y y' Hd Hd' (Hroot s y Hy)
                       (Hroot s' y' Hy') (eq_sym Heq)) as [-> _].
Qed.

Lemma suffixes_NoDup t : FS.valid t = true → NoDup (FS.suffixes t).
Proof.
  induction t as [files subs IH] using tree_ind'. intros Hv.
  apply valid_inv in Hv as (Hnames & Hnd & Hsubs).
  change (FS.suffixes (FS.Dir files subs)) with (FS.rel_paths "/" (FS.Dir files subs)).
  apply rel_paths_NoDup; auto.
  rewrite Forall_forall in IH. rewrite Forall_forall in Hsubs.
  apply Forall_forall. intros ds Hin. by apply IH, Hsubs.
Qed.

End Trees.

Section WalkPaths.

#[local] Arguments String.append : simpl nomatch.

Variable c : Config.

Lemma entry_paths top dirs files :
  Forall (λ n, FS.valid_name n = true) files →
  paths_of (entry_tasks c (top, dirs, files))
  = top :: map (λ f, top +:+ "/" +:+ f) files.
Proof.
  intros Hfiles. simpl. f_equal.
  induction Hfiles as [|f files Hf _ IH]; simpl; [done|].
  by rewrite IH, resolve_file.
Qed.

Lemma walk_paths_node top files subs :
  Forall (λ n, FS.valid_name n = true) (files ++ map fst subs) →
  Forall (λ ds, ∀ top', FS.sep_of top' = "/" →
                paths_of (walk_tasks c (FS.walk top' ds.2))
                = map (String.append top') (FS.suffixes ds.2)) subs →
  paths_of (walk_tasks c (FS.walk top (FS.Dir files subs)))
  = map (String.append top) (FS.rel_paths (FS.sep_of top) (FS.Dir files subs)).
Proof.
  intros [Hfiles Hdirs]%Forall_app Hsubs.
  change (FS.walk top (FS.Dir files subs))
    with ((top, map fst subs, files)
            :: flat_map (λ '(d, s), FS.walk (FS.join top d) s) subs).
  change (walk_tasks c (?e :: ?l)) with (entry_tasks c e ++ walk_tasks c l).
  rewrite paths_of_app, entry_paths by done.
  unfold FS.rel_paths.
  change (map ?f ("" :: ?l)) with (f "" :: map f l).
  rewrite append_empty_r, map_app, map_map, <- app_comm_cons.
  assert (paths_of (walk_tasks c (flat_map (λ '(d, s), FS.walk (FS.join top d) s) subs))
          = map (String.append top)
              (flat_map (λ '(d, s), map (λ x, FS.sep_of top +:+ d +:+ x) (FS.suffixes s))
                        subs)) as ->; [|done].
  induction subs as [|[d s] subs IH]; [done|].
  inversion Hsubs as [|? ? Hs Hsubs']; subst.
  inversion Hdirs as [|? ? Hd Hdirs']; subst. simpl in Hs, Hd.
  simpl. rewrite walk_tasks_app, paths_of_app, map_app, map_map.
  rewrite (IH Hdirs' Hsubs'). f_equal.
  rewrite (join_valid top d Hd), Hs by (by apply sep_of_child).
  apply map_ext. intros x. by rewrite !append_assoc.
Qed.

Lemma walk_paths_below t :
  ∀ top, FS.valid t = true → FS.sep_of top = "/" →
  paths_of (walk_tasks c (FS.walk top t)) = map (String.append top) (FS.suffixes t).
Proof.
  induction t as [files subs IH] using tree_ind'. intros top Hv Hsep.
  apply valid_inv in Hv as (Hnames & _ & Hsubs).
  rewrite walk_paths_node, Hsep; [done|done|].
  rewrite Forall_forall in IH. rewrite Forall_forall in Hsubs.
  apply Forall_forall. intros ds Hin top' Hsep'. by apply IH; [|apply Hsubs|].
Qed.

Lemma walk_paths top t :
  FS.valid t = true →
  paths_of (walk_tasks c (FS.walk top t))
  = map (String.append top) (FS.rel_paths (FS.sep_of top) t).
Proof.
  destruct t as [files subs]. intros Hv.
  apply valid_inv in Hv as (Hnames & _ & Hsubs).
  apply walk_paths_node; [done|].
  rewrite Forall_forall in Hsubs.
  apply Forall_forall. intros ds Hin top' Hsep'. by apply walk_paths_below; [apply Hsubs|].
Qed.

(** The tasks of a walk have pairwise distinct resolved paths. *)
Lemma walk_paths_NoDup top t :
  FS.valid t = true → NoDup (paths_of (walk_tasks c (FS.walk top t))).
Proof.
  intros Hv. rewrite walk_paths by done.
  change (NoDup (String.append top <$> FS.rel_paths (FS.sep_of top) t)).
  apply (NoDup_fmap_2 _).
  destruct t as [files subs].
  apply valid_inv in Hv as (Hnames & Hnd & Hsubs).
  apply rel_paths_NoDup; auto.
  - unfold FS.sep_of. destruct (_ || _); auto.
  - rewrite Forall_forall in Hsubs.
    apply Forall_forall. intros ds Hin. by apply suffixes_NoDup, Hsubs.
Qed.

End WalkPaths.

(** ** Counting the paths of a buffer *)

Section Counting.

#[local] Arguments size : simpl never.

Implicit Types (b : Worker.buffer) (s : gset string) (p x : string).

Lemma buffered_add p x b :
  x ∉ default ∅ (Worker.find p b) →
  Pool.buffered (Worker.add p x b) = S (Pool.buffered b).
Proof.
  unfold Pool.buffered. induction b as [|[k s] b IH]; simpl; intros Hx.
  - by rewrite size_singleton.
  - destruct (decide (k = p)) as [->|Hk]; simpl in *.
    + rewrite size_union, size_singleton by set_solver. done.
    + rewrite IH by done. lia.
Qed.

Lemma buffered_clear p b :
  (Pool.buffered (Worker.clear p b) + size (default ∅ (Worker.find p b)))%nat
  = Pool.buffered b.
Proof.
  unfold Pool.buffered. induction b as [|[k s] b IH]; simpl.
  - by rewrite size_empty.
  - destruct (decide (k = p)) as [->|Hk]; simpl.
    + rewrite size_empty. lia.
    + lia.
Qed.

Lemma batch_sizes_app l1 l2 :
  Pool.batch_sizes (l1 ++ l2) = Pool.batch_sizes l1 ++ Pool.batch_sizes l2.
Proof. unfold Pool.batch_sizes. by rewrite filter_app, map_app. Qed.

Lemma batch_sizes_flush g quiet p s :
  Pool.batch_sizes (Worker.flush g quiet p s) = [size s].
Proof. by destruct g. Qed.

(** A task whose path is new to its group adds one path to what the
    worker has flushed or holds. *)
Lemma task_counts g quiet B r n p b :
  Worker.resolve r n ∉ default ∅ (Worker.find p b) →
  (list_sum (Pool.batch_sizes (Worker.task g quiet B r n p b).2)
   + Pool.buffered (Worker.task g quiet B r n p b).1)%nat
  = S (Pool.buffered b).
Proof.
  intros Hnew. rewrite task_cases. simpl.
  pose proof (buffered_add p _ b Hnew) as Hadd.
  pose proof (buffered_clear p (Worker.add p (Worker.resolve r n) b)) as Hclear.
  rewrite find_add_eq in Hclear. simpl in Hclear.
  destruct (Z.of_nat _ >=? B); simpl.
  - rewrite batch_sizes_flush. simpl. lia.
  - lia.
Qed.

(** The drain flushes everything the buffer holds. *)
Lemma drain_counts g quiet b :
  list_sum (Pool.batch_sizes (Worker.drain g quiet b)) = Pool.buffered b.
Proof.
  unfold Pool.buffered. induction b as [|[k s] b IH]; simpl; [done|].
  rewrite batch_sizes_app, list_sum_app, IH.
  destruct (decide (s = ∅)) as [->|Hne].
  - by rewrite size_empty.
  - rewrite batch_sizes_flush. simpl. lia.
Qed.

(** Every path a task leaves in the buffer was there or is its own. *)
Lemma task_within (P : list string) g quiet B r n p b :
  Forall (λ ks, ∀ y, y ∈ ks.2 → y ∈ P) b →
  Forall (λ ks, ∀ y, y ∈ ks.2 → y ∈ P ++ [Worker.resolve r n])
         (Worker.task g quiet B r n p b).1.
Proof.
  intros Hb. rewrite task_cases. simpl.
  assert (Forall (λ ks, ∀ y, y ∈ ks.2 → y ∈ P ++ [Worker.resolve r n]) b) as Hb'.
  { eapply Forall_impl; [exact Hb|]. simpl. intros ks H y Hy.
    apply elem_of_app. left. by apply H. }
  destruct (Z.of_nat _ >=? B); simpl.
  - apply (clear_add_Forall (λ s, ∀ y, y ∈ s → y ∈ P ++ [Worker.resolve r n])); [done|].
    intros y Hy. by apply not_elem_of_empty in Hy.
  - apply (add_Forall (λ s, ∀ y, y ∈ s → y ∈ P ++ [Worker.resolve r n])); [done|].
    intros y [Hy|Hy]%elem_of_union.
    + apply elem_of_singleton in Hy as ->. apply elem_of_app. right. by left.
    + destruct (Worker.find p b) as [s|] eqn:Hf; simpl in Hy.
      * exact (find_Forall (λ s, ∀ y, y ∈ s → y ∈ P ++ [Worker.resolve r n])
                 p b s Hb' Hf y Hy).
      * by apply not_elem_of_empty in Hy.
Qed.

Lemma find_within (P : list string) p b x :
  Forall (λ ks, ∀ y, y ∈ ks.2 → y ∈ P) b →
  x ∈ default ∅ (Worker.find p b) → x ∈ P.
Proof.
  intros Hb Hx. destruct (Worker.find p b) as [s|] eqn:Hf; simpl in Hx.
  - exact (find_Forall (λ s, ∀ y, y ∈ s → y ∈ P) p b s Hb Hf x Hx).
  - by apply not_elem_of_empty in Hx.
Qed.

Lemma list_sum_insert {A} (f : A → nat) (l : list A) (i : nat) (a a' : A) :
  l !! i = Some a →
  (list_sum (map f (<[i := a']> l)) + f a)%nat = (list_sum (map f l) + f a')%nat.
Proof.
  revert i. induction l as [|x l IH]; intros [|i] Hl; simplify_eq/=.
  - lia.
  - specialize (IH i Hl). lia.
Qed.

End Counting.

(** ** Runs of the pool *)

Section PoolSteps.

Lemma exec_put_inv s s' :
  Pool.exec Pool.APut s = Some s' →
  ∃ x rest, Pool.todo s = x :: rest
            ∧ s' = Pool.mkState rest (Pool.queue s ++ [x]) (Pool.workers s).
Proof.
  unfold Pool.exec. destruct (Pool.todo s) as [|x rest]; [done|].
  intros [= <-]. eauto.
Qed.

Lemma exec_get_inv i s s' :
  Pool.exec (Pool.AGet i) s = Some s' →
  ∃ w x rest, Pool.workers s !! i = Some w ∧ Pool.queue s = x :: rest
              ∧ Pool.w_done w = false
              ∧ s' = Pool.mkState (Pool.todo s) rest
                       (<[i := Pool.handle w x]> (Pool.workers s)).
Proof.
  unfold Pool.exec. destruct (Pool.workers s !! i) as [w|]; [|done].
  destruct (Pool.queue s) as [|x rest]; [done|].
  destruct (Pool.w_done w) eqn:Hd; [done|].
  intros [= <-]. exists w, x, rest. auto.
Qed.

(** Every step uses one unit of fuel. *)
Lemma exec_fuel a s s' : Pool.exec a s = Some s' → Pool.fuel s = S (Pool.fuel s').
Proof.
  destruct a as [|i].
  - intros (x & rest & Ht & ->)%exec_put_inv. unfold Pool.fuel. simpl.
    rewrite Ht, length_app. simpl. lia.
  - intros (w & x & rest & _ & Hq & _ & ->)%exec_get_inv. unfold Pool.fuel. simpl.
    rewrite Hq. simpl. lia.
Qed.

Lemma run_fuel sched s s' :
  Pool.run sched s = Some s' → Pool.fuel s = (length sched + Pool.fuel s')%nat.
Proof.
  revert s. induction sched as [|a sched IH]; intros s; simpl.
  - by intros [= ->].
  - destruct (Pool.exec a s) as [s1|] eqn:Hexec; [|done].
    intros Hrun. rewrite (exec_fuel a s s1 Hexec), (IH s1 Hrun). lia.
Qed.

Lemma running_all_done ws :
  Pool.running ws = 0%nat → Forall (λ w, Pool.w_done w = true) ws.
Proof.
  unfold Pool.running. induction ws as [|w ws IH]; simpl; [constructor|].
  destruct (Pool.w_done w) eqn:Hd; [|done]. intros H. constructor; auto.
Qed.

Lemma running_or_done ws :
  Forall (λ w, Pool.w_done w = true) ws
  ∨ ∃ i w, ws !! i = Some w ∧ Pool.w_done w = false.
Proof.
  induction ws as [|w ws [IH|(i & w' & Hi & Hw)]].
  - left. constructor.
  - destruct (Pool.w_done w) eqn:Hd.
    + left. by constructor.
    + right. by exists 0%nat, w.
  - right. by exists (S i), w'.
Qed.

Lemma all_done_running ws :
  Forall (λ w, Pool.w_done w = true) ws → Pool.running ws = 0%nat.
Proof.
  unfold Pool.running. induction 1 as [|w ws Hd _ IH]; simpl; [done|].
  by rewrite Hd.
Qed.

(** A state is stuck or can move. *)
Lemma stuck_or_step s : Pool.stuck s ∨ ∃ a s', Pool.exec a s = Some s'.
Proof.
  destruct (Pool.todo s) as [|x rest] eqn:Ht.
  - destruct (Pool.queue s) as [|y q] eqn:Hq.
    + left. intros [|i]; unfold Pool.exec; rewrite ?Ht, ?Hq; [done|].
      by destruct (Pool.workers s !! i).
    + destruct (running_or_done (Pool.workers s)) as [Hall|(i & w & Hi & Hw)].
      * left. intros [|i]; unfold Pool.exec; rewrite ?Ht, ?Hq; [done|].
        destruct (Pool.workers s !! i) as [w|] eqn:Hi; [|done].
        rewrite Forall_forall in Hall.
        rewrite (Hall w); [done|]. by eapply list_elem_of_lookup_2.
      * right. exists (Pool.AGet i). unfold Pool.exec. rewrite Hi, Hq, Hw. eauto.
  - right. exists Pool.APut. unfold Pool.exec. rewrite Ht. eauto.
Qed.

(** From every state some schedule leads to a stuck state. *)
Lemma run_to_stuck m :
  ∀ s, (Pool.fuel s ≤ m)%nat → ∃ sched s', Pool.run sched s = Some s' ∧ Pool.stuck s'.
Proof.
  induction m as [|m IH]; intros s Hm.
  - destruct (stuck_or_step s) as [Hs|(a & s' & Hexec)].
    + by exists [], s.
    + apply exec_fuel in Hexec. lia.
  - destruct (stuck_or_step s) as [Hs|(a & s' & Hexec)].
    + by exists [], s.
    + destruct (IH s') as (sched & s'' & Hrun & Hstuck).
      { apply exec_fuel in Hexec. lia. }
      exists (a :: sched), s''. simpl. by rewrite Hexec.
Qed.

End PoolSteps.

Section PoolInvariant.

#[local] Arguments size : simpl never.

Variable tasks : list qitem.
Variable n : nat.
Hypothesis tasks_are_tasks : Forall (λ x, Pool.is_task x = true) tasks.
Hypothesis tasks_distinct : NoDup (paths_of tasks).

Lemma handle_task w r nm p :
  Pool.handle w (Task r nm p) =
  Pool.mkWorker (Pool.w_group w) (Pool.w_quiet w) (Pool.w_blocksize w)
    (Pool.w_in w ++ [Task r nm p])
    (Worker.task (Pool.w_group w) (Pool.w_quiet w) (Pool.w_blocksize w)
                 r nm p (Pool.w_buf w)).1
    (Pool.w_out w
       ++ (Worker.task (Pool.w_group w) (Pool.w_quiet w) (Pool.w_blocksize w)
                       r nm p (Pool.w_buf w)).2)
    false.
Proof. unfold Pool.handle. by destruct (Worker.task _ _ _ _ _ _ _). Qed.

Lemma handled_task w r nm p :
  Worker.resolve r nm ∉ default ∅ (Worker.find p (Pool.w_buf w)) →
  Pool.handled (Pool.handle w (Task r nm p)) = S (Pool.handled w).
Proof.
  intros Hnew. rewrite handle_task. unfold Pool.handled, Pool.flushed. simpl.
  rewrite batch_sizes_app, list_sum_app.
  pose proof (task_counts (Pool.w_group w) (Pool.w_quiet w) (Pool.w_blocksize w)
                r nm p (Pool.w_buf w) Hnew).
  lia.
Qed.

Lemma handled_stop w : Pool.handled (Pool.handle w Stop) = Pool.handled w.
Proof.
  unfold Pool.handled, Pool.flushed. simpl.
  rewrite batch_sizes_app, list_sum_app, drain_counts.
  unfold Pool.buffered at 2. simpl. lia.
Qed.

Lemma running_insert ws i w w' :
  ws !! i = Some w →
  (Pool.running (<[i := w']> ws) + (if Pool.w_done w then 0 else 1))%nat
  = (Pool.running ws + (if Pool.w_done w' then 0 else 1))%nat.
Proof. apply (list_sum_insert (λ w, if Pool.w_done w then 0%nat else 1%nat)). Qed.

Lemma running_repeat w k :
  Pool.w_done w = false → Pool.running (repeat w k) = k.
Proof.
  intros Hw. unfold Pool.running. induction k as [|k IH]; simpl; [done|].
  by rewrite Hw, IH.
Qed.

(** The pool starts in the invariant. *)
Lemma pool_inv_start g quiet B :
  pool_inv tasks n
    (Pool.mkState (tasks ++ repeat Stop n) []
                  (repeat (Pool.mkWorker g quiet B [] [] [] false) n)).
Proof.
  exists [], tasks. simpl. rewrite running_repeat, repeat_length by done.
  repeat split; auto.
  - intros Hlt. lia.
  - clear. induction n as [|k IH]; simpl; [done|]. by rewrite IH.
  - apply Forall_forall. intros w Hw%list_elem_of_In%repeat_spec. subst. simpl.
    split; [constructor|done].
Qed.

(** Every step keeps the invariant. *)
Lemma pool_inv_exec a s s' :
  pool_inv tasks n s → Pool.exec a s = Some s' → pool_inv tasks n s'.
Proof.
  intros (consumed & remaining & Ht & Hq & Hlen & Hlate & Hsum & Hbuf) Hexec.
  destruct a as [|i].
  - apply exec_put_inv in Hexec as (x & rest & Htodo & ->).
    exists consumed, remaining. simpl. repeat split; auto.
    by rewrite <- app_assoc, <- Hq, Htodo.
  - apply exec_get_inv in Hexec as (w & x & rest & Hi & Hqueue & Hrun & ->).
    rewrite Hqueue in Hq. simpl in Hq.
    pose proof (Forall_lookup_1 _ _ _ _ Hbuf Hi) as [Hw _].
    pose proof (running_insert _ _ _ (Pool.handle w x) Hi) as Hk.
    pose proof (list_sum_insert Pool.handled _ _ _ (Pool.handle w x) Hi) as Hh.
    rewrite Hrun in Hk.
    destruct x as [r nm p|].
    + destruct remaining as [|y rem]; simpl in Hq.
      { destruct (Pool.running (Pool.workers s)); discriminate. }
      injection Hq as <- Hq.
      assert (Worker.resolve r nm ∉ paths_of consumed) as Hfresh.
      { pose proof tasks_distinct as Hnd. rewrite Ht, paths_of_app in Hnd.
        apply NoDup_app in Hnd as (_ & Hdisj & _).
        intros Hin. apply (Hdisj _ Hin). by left. }
      assert (Worker.resolve r nm ∉ default ∅ (Worker.find p (Pool.w_buf w))) as Hnew.
      { intros Hin. apply Hfresh. by eapply find_within. }
      rewrite handled_task in Hh by done.
      assert (Pool.w_done (Pool.handle w (Task r nm p)) = false) as Hstill
        by (by rewrite handle_task).
      rewrite Hstill in Hk.
      exists (consumed ++ [Task r nm p]), rem.
      cbn [Pool.queue Pool.todo Pool.workers].
      assert (Pool.running (<[i := Pool.handle w (Task r nm p)]> (Pool.workers s))
              = Pool.running (Pool.workers s)) as Hk' by lia.
      rewrite Hk', length_insert, length_app, paths_of_app.
      cbn [paths_of length].
      repeat split; auto.
      * by rewrite <- app_assoc.
      * intros Hlt. by specialize (Hlate Hlt).
      * lia.
      * apply Forall_insert.
        -- eapply Forall_impl; [exact Hbuf|]. simpl. intros w' [Hb Hd]. split; [|done].
           eapply Forall_impl; [exact Hb|]. simpl. intros ks H y Hy.
           apply elem_of_app. left. by apply H.
        -- rewrite handle_task. simpl. split; [|done]. by apply task_within.
    + destruct remaining as [|y rem]; simpl in Hq.
      2:{ injection Hq as <- _. rewrite Ht in tasks_are_tasks.
          apply Forall_app in tasks_are_tasks as [_ Hrem].
          by inversion Hrem. }
      rewrite handled_stop in Hh.
      change (Pool.w_done (Pool.handle w Stop)) with true in Hk.
      destruct (Pool.running (Pool.workers s)) as [|k] eqn:Hrunning; [done|].
      injection Hq as Hq.
      exists consumed, []. cbn [Pool.queue Pool.todo Pool.workers].
      assert (Pool.running (<[i := Pool.handle w Stop]> (Pool.workers s)) = k)
        as Hk' by lia.
      rewrite Hk', length_insert.
      repeat split; auto.
      * lia.
      * apply Forall_insert; [done|]. simpl. split; [constructor|done].
Qed.

Lemma pool_inv_run sched :
  ∀ s s', pool_inv tasks n s → Pool.run sched s = Some s' → pool_inv tasks n s'.
Proof.
  induction sched as [|a sched IH]; intros s s' Hinv; simpl.
  - by intros [= <-].
  - destruct (Pool.exec a s) as [s1|] eqn:Hexec; [|done].
    apply IH. by eapply pool_inv_exec.
Qed.

(** In a stuck state of a pool with a worker, every worker has stopped
    and every task has been flushed. *)
Lemma pool_inv_stuck s :
  (1 ≤ n)%nat → pool_inv tasks n s → Pool.stuck s →
  Pool.all_done s ∧ Pool.flushed_total s = length tasks.
Proof.
  intros Hn (consumed & remaining & Ht & Hq & Hlen & Hlate & Hsum & Hbuf) Hstuck.
  assert (Pool.todo s = []) as Htodo.
  { pose proof (Hstuck Pool.APut) as H. unfold Pool.exec in H.
    by destruct (Pool.todo s). }
  assert (Pool.running (Pool.workers s) = 0%nat) as Hk.
  { destruct (running_or_done (Pool.workers s)) as [Hall|(i & w & Hi & Hw)].
    - by apply all_done_running.
    - destruct (Pool.running (Pool.workers s)) as [|k] eqn:Hrunning; [done|].
      exfalso. rewrite Htodo, app_nil_r in Hq.
      pose proof (Hstuck (Pool.AGet i)) as H. unfold Pool.exec in H.
      rewrite Hi, Hw, Hq in H. by destruct remaining. }
  pose proof (running_all_done _ Hk) as Hall.
  split; [done|].
  rewrite Hlate in Ht by lia. rewrite app_nil_r in Ht. subst consumed.
  rewrite <- Hsum. unfold Pool.flushed_total. f_equal.
  apply map_ext_Forall.
  rewrite Forall_forall in Hall. rewrite Forall_forall in Hbuf.
  apply Forall_forall. intros w Hw. unfold Pool.handled.
  destruct (Hbuf w Hw) as [_ Hempty]. rewrite (Hempty (Hall w Hw)).
  unfold Pool.buffered. simpl. lia.
Qed.

End PoolInvariant.

(** ** The workers of the pool run [worker_main] *)

Section PoolWorkers.

Lemma loop_app_tasks g quiet B l rest b out :
  Forall (λ x, Pool.is_task x = true) l →
  Worker.loop g quiet B (l ++ rest) b out =
  match Worker.loop g quiet B (l ++ [Stop]) b out with
  | Some (b', out') => Worker.loop g quiet B rest b' out'
  | None => None
  end.
Proof.
  intros Hl. revert b out. induction Hl as [|x l Hx _ IH]; intros b out; [done|].
  destruct x as [r nm p|]; [|done]. simpl.
  destruct (Worker.task g quiet B r nm p b) as [b1 cmds]. apply IH.
Qed.

Lemma handle_agrees w x :
  Pool.w_done w = false → worker_agrees w → worker_agrees (Pool.handle w x).
Proof.
  unfold worker_agrees. intros Hrun. rewrite Hrun. intros [Hin Hloop].
  destruct x as [r nm p|].
  - rewrite handle_task. cbn [Pool.w_done Pool.w_in Pool.w_buf Pool.w_out
                               Pool.w_group Pool.w_quiet Pool.w_blocksize].
    split; [apply Forall_app; split; [done|by constructor]|].
    rewrite <- app_assoc, loop_app_tasks, Hloop by done. simpl.
    by destruct (Worker.task _ _ _ _ _ _ _).
  - cbn [Pool.handle Pool.w_done Pool.w_in Pool.w_buf Pool.w_out
         Pool.w_group Pool.w_quiet Pool.w_blocksize].
    unfold Worker.worker_main. by rewrite Hloop.
Qed.

Lemma exec_agrees a s s' :
  Forall worker_agrees (Pool.workers s) → Pool.exec a s = Some s' →
  Forall worker_agrees (Pool.workers s').
Proof.
  intros Hall Hexec. destruct a as [|i].
  - by apply exec_put_inv in Hexec as (x & rest & _ & ->).
  - apply exec_get_inv in Hexec as (w & x & rest & Hi & _ & Hrun & ->). simpl.
    apply Forall_insert; [done|]. apply handle_agrees; [done|].
    by eapply Forall_lookup_1.
Qed.

Lemma run_agrees sched :
  ∀ s s', Forall worker_agrees (Pool.workers s) → Pool.run sched s = Some s' →
          Forall worker_agrees (Pool.workers s').
Proof.
  induction sched as [|a sched IH]; intros s s' Hall; simpl.
  - by intros [= <-].
  - destruct (Pool.exec a s) as [s1|] eqn:Hexec; [|done].
    apply IH. by eapply exec_agrees.
Qed.

Lemma start_agrees g quiet B k :
  Forall worker_agrees (repeat (Pool.mkWorker g quiet B [] [] [] false) k).
Proof.
  apply Forall_forall. intros w Hw%list_elem_of_In%repeat_spec. subst.
  unfold worker_agrees. simpl. by split.
Qed.

End PoolWorkers.

(** ** Claims about the whole run *)

Lemma walk_tasks_are_tasks c walk :
  Forall (λ x, Pool.is_task x = true) (walk_tasks c walk).
Proof.
  unfold walk_tasks. apply Forall_flat_map, Forall_forall. intros [[root dirs] files] _.
  simpl. constructor; [done|]. apply Forall_forall.
  intros x [f [<- _]]%list_elem_of_In%in_map_iff. done.
Qed.

(** C1, as the code has it. For a tree of F files and D directories that
    [os.walk] lists in full (what it yields for the root is the top-down
    listing [FS.walk] of the tree: no directory is skipped as unreadable),
    the coordinator puts exactly F + D tasks on the queue, with pairwise
    distinct resolved paths, followed by one termination tuple per worker.
    Every schedule of the pool is finite and some schedule runs until no
    process can move. When there is at least one worker, every such run
    ends with all workers stopped and with batches whose sizes add up to
    F + D. *)
Theorem every_task_is_enqueued_and_flushed (E : Env) (c : Config) (t : FS.tree) :
  FS.valid t = true →
  os_walk E (path c) = FS.walk (path c) t →
  Pool.todo (Pool.start (fastmod_folder E c).1)
  = walk_tasks c (FS.walk (path c) t) ++ repeat Stop (Z.to_nat (ncpus c))
  ∧ length (walk_tasks c (FS.walk (path c) t)) = (FS.nfiles t + FS.ndirs t)%nat
  ∧ NoDup (paths_of (walk_tasks c (FS.walk (path c) t)))
  ∧ (∀ sched s,
       Pool.run sched (Pool.start (fastmod_folder E c).1) = Some s →
       (length sched ≤ 2 * (FS.nfiles t + FS.ndirs t + Z.to_nat (ncpus c)))%nat)
  ∧ (∃ sched s,
       Pool.run sched (Pool.start (fastmod_folder E c).1) = Some s ∧ Pool.stuck s)
  ∧ (1 ≤ ncpus c →
     ∀ sched s,
       Pool.run sched (Pool.start (fastmod_folder E c).1) = Some s →
       Pool.stuck s →
       Pool.all_done s
       ∧ Forall (λ w, Worker.worker_main (Pool.w_group w) (Pool.w_quiet w)
                        (Pool.w_blocksize w) (Pool.w_in w) = Some (Pool.w_out w))
                (Pool.workers s)
       ∧ Pool.flushed_total s = (FS.nfiles t + FS.ndirs t)%nat).
Proof.
  intros Hvalid Hwalk.
  rewrite start_fastmod_folder. unfold produced, nworkers. rewrite Hwalk.
  pose proof (walk_tasks_length c t (path c)) as Hlen.
  split; [done|]. split; [done|]. split; [by apply walk_paths_NoDup|]. split; [|split].
  - intros sched s Hrun. apply run_fuel in Hrun. unfold Pool.fuel in Hrun.
    simpl in Hrun. rewrite length_app, repeat_length, Hlen in Hrun. lia.
  - by eapply run_to_stuck.
  - intros Hn sched s Hrun Hstuck. rewrite <- Hlen.
    destruct (pool_inv_stuck (walk_tasks c (FS.walk (path c) t)) (Z.to_nat (ncpus c)) s)
      as [Hdone Htotal].
    + lia.
    + eapply pool_inv_run; [apply walk_tasks_are_tasks|by apply walk_paths_NoDup| |exact Hrun].
      apply pool_inv_start.
    + done.
    + split; [done|]. split; [|done].
      pose proof (run_agrees sched (Pool.mkState _ _ _) s (start_agrees _ _ _ _) Hrun)
        as Hagree.
      unfold Pool.all_done in Hdone.
      rewrite Forall_forall in Hdone. rewrite Forall_forall in Hagree.
      apply Forall_forall. intros w Hw.
      specialize (Hagree w Hw). unfold worker_agrees in Hagree.
      by rewrite (Hdone w Hw) in Hagree.
Qed.

Lemma every_task_is_enqueued_and_flushed_witness :
  FS.valid sample_tree = true
  ∧ os_walk sample_env "d" = FS.walk "d" sample_tree
  ∧ 1 ≤ 2
  ∧ ∀ sched s,
      Pool.run sched
        (Pool.start (fastmod_folder sample_env
                       (mkConfig "d" "a-w" "a-w" None false 2 1 true)).1) = Some s →
      Pool.stuck s →
      Pool.all_done s
      ∧ Forall (λ w, Worker.worker_main (Pool.w_group w) (Pool.w_quiet w)
                       (Pool.w_blocksize w) (Pool.w_in w) = Some (Pool.w_out w))
               (Pool.workers s)
      ∧ Pool.flushed_total s = 2%nat.
Proof.
  split; [reflexivity|]. split; [reflexivity|]. split; [lia|].
  refine (proj2 (proj2 (proj2 (proj2 (proj2
    (every_task_is_enqueued_and_flushed sample_env
       (mkConfig "d" "a-w" "a-w" None false 2 1 true) sample_tree eq_refl eq_refl))))) _).
  simpl. lia.
Defined.

(** Every tree holds its root: F + D is at least one. *)
Lemma tree_holds_its_root (t : FS.tree) : (1 ≤ FS.nfiles t + FS.ndirs t)%nat.
Proof. destruct t. simpl. lia. Qed.

(** The count of C1 fails in two ways. With no worker ([-C0], or the
    default on a machine with one processor) the two tasks of
    [sample_tree] are enqueued, nothing can move any more, and no batch has
    been flushed. And a root that exists and is a directory but cannot be
    listed is walked to nothing: with one worker, the only item put is the
    termination tuple and the worker stops having run no command, though
    the tree behind the root, whatever it is, holds at least the root. *)
Lemma no_worker_or_no_listing_breaks_the_count :
  (parse_args sample_env ["fastmod"; "d"; "-C0"; "-q"] = ([], Ret (Some no_worker_config))
   ∧ FS.valid sample_tree = true
   ∧ os_walk sample_env (path no_worker_config) = FS.walk (path no_worker_config) sample_tree
   ∧ (FS.nfiles sample_tree + FS.ndirs sample_tree)%nat = 2%nat
   ∧ ∃ s,
       Pool.run [Pool.APut; Pool.APut]
         (Pool.start (fastmod_folder sample_env no_worker_config).1) = Some s
       ∧ Pool.stuck s
       ∧ Pool.flushed_total s = 0%nat)
  ∧ (parse_args unlistable_env ["fastmod"; "d"; "-q"; "-C1"]
     = ([], Ret (Some one_worker_config))
     ∧ path_exists unlistable_env (path one_worker_config) = true
     ∧ path_isdir unlistable_env (path one_worker_config) = true
     ∧ os_walk unlistable_env (path one_worker_config) = []
     ∧ Pool.todo (Pool.start (fastmod_folder unlistable_env one_worker_config).1) = [Stop]
     ∧ (∀ t, (FS.nfiles t + FS.ndirs t)%nat ≠ 0%nat)
     ∧ ∃ s,
         Pool.run [Pool.APut; Pool.AGet 0]
           (Pool.start (fastmod_folder unlistable_env one_worker_config).1) = Some s
         ∧ Pool.stuck s
         ∧ Pool.all_done s
         ∧ Pool.flushed_total s = 0%nat).
Proof.
  split.
  - split; [reflexivity|]. split; [reflexivity|]. split; [reflexivity|].
    split; [reflexivity|].
    eexists. split; [vm_compute; reflexivity|]. split; [|reflexivity].
    intros [|i]; reflexivity.
  - split; [reflexivity|]. split; [reflexivity|]. split; [reflexivity|].
    split; [reflexivity|]. split; [reflexivity|]. split.
    + intros t. pose proof (tree_holds_its_root t). lia.
    + eexists. split; [vm_compute; reflexivity|]. split; [|split; [|reflexivity]].
      * intros [|[|i]]; reflexivity.
      * repeat constructor.
Qed.

(** * Further properties of the program *)

(** ** The worker and the termination tuple *)

Section WorkerStream.

Lemma loop_is_Some g quiet B stream :
  ∀ b out, is_Some (Worker.loop g quiet B stream b out) ↔ Stop ∈ stream.
Proof.
  induction stream as [|x stream IH]; intros b out; simpl.
  - split; [by intros [? ?]|by intros ?%not_elem_of_nil].
  - destruct x as [r n p|].
    + destruct (Worker.task g quiet B r n p b) as [b1 cmds]. rewrite IH.
      rewrite elem_of_cons. split; [auto|]. by intros [?|?].
    + split; [intros _; by left|by eexists].
Qed.

Lemma loop_ignores_rest g quiet B ts rest :
  ∀ b out,
    Worker.loop g quiet B (map Worker.task_of ts ++ Stop :: rest) b out
    = Worker.loop g quiet B (map Worker.task_of ts ++ [Stop]) b out.
Proof.
  induction ts as [|[[r n] p] ts IH]; intros b out; simpl; [done|].
  destruct (Worker.task g quiet B r n p b) as [b1 cmds]. apply IH.
Qed.

(** X1. [worker_main] returns exactly on the streams that hold a
    termination tuple (on any other it stays in [queue.get()]), and what it
    does is fixed by the items up to the first one. *)
Theorem worker_returns_iff_it_is_told_to_stop
    (g : option string) (quiet : bool) (B : Z) :
  (∀ stream, is_Some (Worker.worker_main g quiet B stream) ↔ Stop ∈ stream)
  ∧ (∀ ts rest,
       Worker.worker_main g quiet B (map Worker.task_of ts ++ Stop :: rest)
       = Worker.worker_main g quiet B (map Worker.task_of ts ++ [Stop])).
Proof.
  split.
  - intros stream. rewrite <- (loop_is_Some g quiet B stream [] []).
    unfold Worker.worker_main.
    destruct (Worker.loop g quiet B stream [] []) as [[b out]|]; [|done].
    split; intros _; by eexists.
  - intros ts rest. unfold Worker.worker_main. by rewrite loop_ignores_rest.
Qed.

Lemma flush_as_configured g quiet p s :
  Forall (cmd_as_configured g quiet) (Worker.flush g quiet p s).
Proof. destruct g; repeat constructor. Qed.

(** X2. Every command of a worker carries [-f] exactly when the worker is
    quiet, and every [chgrp] names the group the worker was started with;
    so a worker started without a group never runs [chgrp]. *)
Theorem worker_commands_follow_its_arguments
    (g : option string) (quiet : bool) (B : Z)
    (ts : list (string * string * string)) (rest : list qitem) :
  ∃ out,
    Worker.worker_main g quiet B (map Worker.task_of ts ++ Stop :: rest) = Some out
    ∧ Forall (cmd_as_configured g quiet) out
    ∧ (g = None → Forall (λ c, is_chgrp c = false) out).
Proof.
  destruct (loop_invariant g quiet B (λ _, True) (Forall (cmd_as_configured g quiet)))
    with (ts := ts) (rest := rest) (b := @nil (string * gset string)) (out := @nil syscmd)
    as (b & mid & Hloop & _ & Hmid).
  - intros r n p b _. split; [done|]. rewrite task_cases. simpl.
    destruct (Z.of_nat _ >=? B); simpl; [apply flush_as_configured|constructor].
  - intros l1 l2 H1 H2. apply Forall_app. by split.
  - done.
  - constructor.
  - exists (mid ++ Worker.drain g quiet b). unfold Worker.worker_main. rewrite Hloop.
    assert (Forall (cmd_as_configured g quiet) (mid ++ Worker.drain g quiet b)) as Hall.
    { apply Forall_app. split; [done|].
      apply drain_Forall. intros ks _ _. apply flush_as_configured. }
    split; [done|]. split; [done|].
    intros ->. eapply Forall_impl; [exact Hall|].
    intros [force grp ps|force perms ps]; simpl; [by intros [_ ?]|done].
Qed.

Lemma worker_commands_follow_its_arguments_witness :
  ∃ out,
    Worker.worker_main None true 1 (map Worker.task_of [("d", "f", "p")] ++ [Stop])
    = Some out
    ∧ Forall (λ c, is_chgrp c = false) out.
Proof.
  destruct (worker_commands_follow_its_arguments None true 1 [("d", "f", "p")] [])
    as (out & Hout & _ & Hno).
  exists out. split; [exact Hout|]. by apply Hno.
Defined.

End WorkerStream.

(** ** The paths of the command lines of a worker *)

Section WorkerWrites.

(** X3. For every permission string, the paths that a worker writes
    into its [chmod] command lines with that string, in the loop and in
    the drain together, are exactly the resolved paths of the tasks it took
    with that string: none is left out, none is added, none is written with
    the permission string of another task. This holds also when paths
    repeat. The statement is about the paths the command lines are composed
    of: each is written between single quotes and not escaped, and what the
    shell makes of a path that holds a quote itself is not part of it. *)
Theorem worker_batches_hold_exactly_its_tasks
    (g : option string) (quiet : bool) (B : Z)
    (ts : list (string * string * string)) (rest : list qitem) :
  ∃ out,
    Worker.worker_main g quiet B (map Worker.task_of ts ++ Stop :: rest) = Some out
    ∧ ∀ perms path,
        path ∈ batch_paths perms out ↔ path ∈ paths_with perms (map Worker.task_of ts).
Proof. apply worker_main_covers. Qed.

End WorkerWrites.

(** ** Quoting *)

Section Quoting.

#[local] Arguments String.append : simpl nomatch.

Lemma append_assoc' (a x y : string) : (a +:+ x) +:+ y = a +:+ (x +:+ y).
Proof. induction a as [|ch a IH]; simpl; [done|]. by rewrite IH. Qed.

Lemma joined_paths_cons (p : string) (ps : list string) :
  joined_paths (p :: ps)
  = "'" +:+ p +:+ "'" +:+ (match ps with [] => "" | _ :: _ => " " +:+ joined_paths ps end).
Proof.
  destruct ps as [|q ps]; cbn [joined_paths]; [|reflexivity].
  assert (∀ s : string, s +:+ "" = s) as Hnil.
  { intros s. induction s as [|ch s IH]; simpl; [done|]. by rewrite IH. }
  by rewrite Hnil.
Qed.

(** X17. The paths of a command line are put between single quotes and
    not escaped, so a command line does not tell its paths: one path that
    holds [' '] gives the very string that two paths give, for [chmod] and
    for [chgrp], whatever the other paths are. *)
Theorem paths_are_quoted_not_escaped
    (force : bool) (arg a b : string) (rest : list string) :
  command_line (Chmod force arg ((a +:+ "' '" +:+ b) :: rest))
  = command_line (Chmod force arg (a :: b :: rest))
  ∧ command_line (Chgrp force arg ((a +:+ "' '" +:+ b) :: rest))
    = command_line (Chgrp force arg (a :: b :: rest)).
Proof.
  assert (joined_paths ((a +:+ "' '" +:+ b) :: rest) = joined_paths (a :: b :: rest)) as Hj.
  { rewrite (joined_paths_cons a (b :: rest)), (joined_paths_cons b rest).
    rewrite joined_paths_cons.
    f_equal. rewrite !append_assoc'. reflexivity. }
  unfold command_line. by rewrite Hj.
Qed.

End Quoting.

(** ** How many batches *)

Section Batches.

#[local] Arguments size : simpl never.
#[local] Set Warnings "-clear-no-such-hyp".

Implicit Types (b : Worker.buffer) (s : gset string) (p x : string).

Lemma drain_all_empty g quiet b :
  Forall (λ ks, ks.2 = ∅) b → Worker.drain g quiet b = [].
Proof.
  induction 1 as [|[k s] b Hs _ IH]; simpl in *; [done|].
  subst. by rewrite decide_True.
Qed.

Lemma find_all_empty p b :
  Forall (λ ks, ks.2 = ∅) b → default ∅ (Worker.find p b) = ∅.
Proof.
  intros Hb. destruct (Worker.find p b) as [s|] eqn:Hf; [|done].
  exact (find_Forall (λ s, s = ∅) p b s Hb Hf).
Qed.

Lemma task_unbatched g quiet B r n p b :
  B ≤ 1 → Forall (λ ks, ks.2 = ∅) b →
  Forall (λ ks, ks.2 = ∅) (Worker.task g quiet B r n p b).1
  ∧ (Worker.task g quiet B r n p b).2 = Worker.flush g quiet p {[ Worker.resolve r n ]}.
Proof.
  intros HB Hb. rewrite task_cases, (find_all_empty p b Hb), (right_id_L ∅ (∪)).
  simpl. rewrite size_singleton.
  destruct (Z.geb_spec (Z.of_nat 1) B) as [_|?]; [|lia]. simpl.
  split; [|done]. by apply (clear_add_Forall (λ s, s = ∅)).
Qed.

Lemma loop_unbatched g quiet B ts rest :
  B ≤ 1 →
  ∀ b out,
    Forall (λ ks, ks.2 = ∅) b →
    ∃ b',
      Worker.loop g quiet B (map Worker.task_of ts ++ Stop :: rest) b out
      = Some (b', out ++ flat_map (λ t, Worker.flush g quiet t.2
                                          {[ Worker.resolve t.1.1 t.1.2 ]}) ts)
      ∧ Forall (λ ks, ks.2 = ∅) b'.
Proof.
  intros HB. induction ts as [|[[r n] p] ts IH]; intros b out Hb; simpl.
  - exists b. by rewrite app_nil_r.
  - destruct (task_unbatched g quiet B r n p b HB Hb) as [Hb1 Hcmds].
    destruct (Worker.task g quiet B r n p b) as [b1 cmds]. simpl in *. subst cmds.
    destruct (IH b1 (out ++ Worker.flush g quiet p {[Worker.resolve r n]}) Hb1)
      as (b' & Hloop & Hb').
    exists b'. by rewrite Hloop, <- app_assoc.
Qed.

(** X4. With a block size of one or less there is no batching: the
    worker runs the commands of each task, on that task's path alone, as
    soon as it takes the task (a path that comes twice is handled twice),
    and the drain has nothing left to do. *)
Theorem block_size_of_one_or_less_disables_batching
    (g : option string) (quiet : bool) (B : Z)
    (ts : list (string * string * string)) (rest : list qitem) :
  B ≤ 1 →
  Worker.worker_main g quiet B (map Worker.task_of ts ++ Stop :: rest)
  = Some (flat_map (λ t, Worker.flush g quiet t.2 {[ Worker.resolve t.1.1 t.1.2 ]}) ts).
Proof.
  intros HB.
  destruct (loop_unbatched g quiet B ts rest HB [] []) as (b' & Hloop & Hb');
    [constructor|].
  unfold Worker.worker_main. rewrite Hloop. simpl.
  by rewrite (drain_all_empty g quiet b' Hb'), app_nil_r.
Qed.

Lemma block_size_of_one_or_less_disables_batching_witness :
  0 ≤ 1
  ∧ Worker.worker_main None false 0
      (map Worker.task_of [("d", "f", "p"); ("d", "f", "p")] ++ [Stop])
    = Some (flat_map (λ t, Worker.flush None false t.2 {[ Worker.resolve t.1.1 t.1.2 ]})
                     [("d", "f", "p"); ("d", "f", "p")]).
Proof.
  split; [lia|].
  apply (block_size_of_one_or_less_disables_batching None false 0
           [("d", "f", "p"); ("d", "f", "p")] []).
  lia.
Defined.

Lemma single_group_add perms x b :
  single_group perms b → single_group perms (Worker.add perms x b).
Proof.
  intros [->|[s ->]]; simpl; right; [by eexists|].
  rewrite decide_True by done. by eexists.
Qed.

Lemma single_group_clear perms b :
  single_group perms b → single_group perms (Worker.clear perms b).
Proof.
  intros [->|[s ->]]; simpl; [by left|right].
  rewrite decide_True by done. by eexists.
Qed.

Lemma drain_single_group g quiet perms b :
  single_group perms b →
  Pool.batch_sizes (Worker.drain g quiet b)
  = if decide (size (default ∅ (Worker.find perms b)) = 0%nat) then []
    else [size (default ∅ (Worker.find perms b))].
Proof.
  intros [->|[s ->]]; simpl.
  - rewrite size_empty, decide_True by done. reflexivity.
  - destruct (decide (perms = perms)); [|done]. simpl. rewrite app_nil_r.
    destruct (decide (s = ∅)) as [->|Hs].
    + rewrite size_empty, decide_True by done. reflexivity.
    + rewrite batch_sizes_flush, decide_False; [done|].
      intros H0%size_empty_inv. by apply leibniz_equiv in H0.
Qed.

Lemma loop_single_group g quiet (m : nat) perms rest :
  (1 ≤ m)%nat →
  ∀ (ts : list (string * string)) b out,
    single_group perms b →
    (size (default ∅ (Worker.find perms b)) < m)%nat →
    Forall (λ rn, Worker.resolve rn.1 rn.2 ∉ default ∅ (Worker.find perms b)) ts →
    NoDup (map (λ rn, Worker.resolve rn.1 rn.2) ts) →
    ∃ b' out',
      Worker.loop g quiet (Z.of_nat m)
        (map (λ rn, Task rn.1 rn.2 perms) ts ++ Stop :: rest) b out = Some (b', out')
      ∧ single_group perms b'
      ∧ size (default ∅ (Worker.find perms b'))
        = ((size (default ∅ (Worker.find perms b)) + length ts) mod m)%nat
      ∧ Pool.batch_sizes out'
        = Pool.batch_sizes out
            ++ repeat m ((size (default ∅ (Worker.find perms b)) + length ts) / m)%nat.
Proof.
  intros Hm. induction ts as [|[r n] ts IH]; intros b out Hshape Hlt Hfresh Hnd.
  - exists b, out. simpl. rewrite Nat.add_0_r, Nat.mod_small, Nat.div_small by done.
    simpl. by rewrite app_nil_r.
  - apply Forall_cons in Hfresh as [Hx Hfresh]. simpl in Hx, Hnd.
    apply NoDup_cons in Hnd as [Hxts Hnd].
    simpl. rewrite task_cases. simpl.
    set (old := default ∅ (Worker.find perms b)) in *.
    set (x := Worker.resolve r n) in *.
    assert (size ({[x]} ∪ old) = S (size old)) as Hsize.
    { rewrite size_union, size_singleton by set_solver. done. }
    rewrite Hsize.
    destruct (Z.geb_spec (Z.of_nat (S (size old))) (Z.of_nat m)) as [Hge|Hlt'].
    + assert (S (size old) = m) as Hfull by lia.
      destruct (IH (Worker.clear perms (Worker.add perms x b))
                  (out ++ Worker.flush g quiet perms ({[x]} ∪ old)))
        as (b' & out' & Hloop & Hshape' & Hsize' & Hout').
      * by apply single_group_clear, single_group_add.
      * rewrite find_clear, decide_True, size_empty by done. lia.
      * apply Forall_forall. intros rn _.
        rewrite find_clear, decide_True by done. apply not_elem_of_empty.
      * done.
      * exists b', out'. split; [done|]. split; [done|].
        rewrite find_clear, decide_True, size_empty in Hsize', Hout' by done.
        simpl in Hsize', Hout'.
        rewrite batch_sizes_app, batch_sizes_flush, Hsize, Hfull in Hout'.
        replace (size old + S (length ts))%nat with (1 * m + length ts)%nat by lia.
        rewrite Nat.div_add_l by lia.
        rewrite Nat.add_comm, Nat.Div0.mod_add.
        split; [done|]. rewrite Hout', <- app_assoc. done.
    + destruct (IH (Worker.add perms x b) (out ++ []))
        as (b' & out' & Hloop & Hshape' & Hsize' & Hout').
      * by apply single_group_add.
      * rewrite find_add_eq. simpl. fold old. lia.
      * apply Forall_forall. intros rn Hin.
        rewrite find_add_eq. simpl. fold old.
        rewrite Forall_forall in Hfresh. specialize (Hfresh rn Hin).
        assert (Worker.resolve rn.1 rn.2 ≠ x).
        { intros Heq. apply Hxts. rewrite <- Heq.
          apply list_elem_of_In, in_map_iff. exists rn. split; [done|].
          by apply list_elem_of_In. }
        set_solver.
      * done.
      * exists b', out'. split; [done|]. split; [done|].
        rewrite find_add_eq in Hsize', Hout'. simpl in Hsize', Hout'.
        fold old in Hsize', Hout'. rewrite Hsize in Hsize', Hout'.
        rewrite app_nil_r in Hout'.
        replace (size old + S (length ts))%nat with (S (size old) + length ts)%nat by lia.
        done.
Qed.

(** X5. A worker that takes [k] tasks with one permission string and
    pairwise distinct paths, with a block size [B] of at least one,
    flushes [k / B] batches of [B] paths in its loop and, when [B] does not
    divide [k], one last batch of [k mod B] paths in the drain. *)
Theorem batches_of_one_permission_string
    (g : option string) (quiet : bool) (B : Z) (perms : string)
    (ts : list (string * string)) (rest : list qitem) :
  1 ≤ B →
  NoDup (map (λ rn, Worker.resolve rn.1 rn.2) ts) →
  ∃ out,
    Worker.worker_main g quiet B (map (λ rn, Task rn.1 rn.2 perms) ts ++ Stop :: rest)
    = Some out
    ∧ Pool.batch_sizes out
      = repeat (Z.to_nat B) (length ts / Z.to_nat B)%nat
          ++ (if decide ((length ts mod Z.to_nat B)%nat = 0%nat) then []
              else [(length ts mod Z.to_nat B)%nat]).
Proof.
  intros HB Hnd.
  destruct (loop_single_group g quiet (Z.to_nat B) perms rest) with (ts := ts)
    (b := @nil (string * gset string)) (out := @nil syscmd)
    as (b' & out' & Hloop & Hshape & Hsize & Hout).
  - lia.
  - by left.
  - simpl. rewrite size_empty. lia.
  - apply Forall_forall. intros rn _. simpl. apply not_elem_of_empty.
  - done.
  - rewrite Z2Nat.id in Hloop by lia.
    exists (out' ++ Worker.drain g quiet b'). unfold Worker.worker_main. rewrite Hloop.
    split; [done|].
    rewrite batch_sizes_app, Hout, (drain_single_group g quiet perms b' Hshape), Hsize.
    simpl. by rewrite size_empty.
Qed.

Lemma batches_of_one_permission_string_witness :
  ∃ out,
    Worker.worker_main None false 2
      (map (λ rn, Task rn.1 rn.2 "p") [("d", "."); ("d", "a"); ("d", "b")] ++ [Stop])
    = Some out
    ∧ Pool.batch_sizes out = [2%nat; 1%nat].
Proof.
  apply (batches_of_one_permission_string None false 2 "p"
           [("d", "."); ("d", "a"); ("d", "b")] []).
  - lia.
  - apply (bool_decide_unpack _). vm_compute. exact I.
Defined.

End Batches.

(** ** Who takes what *)

Section PoolItems.

Lemma w_in_handle w x : Pool.w_in (Pool.handle w x) = Pool.w_in w ++ [x].
Proof.
  destruct x as [r n p|]; [|done].
  unfold Pool.handle. by destruct (Worker.task _ _ _ _ _ _ _).
Qed.

Lemma w_done_handle w x :
  Pool.w_done (Pool.handle w x) = negb (Pool.is_task x).
Proof.
  destruct x as [r n p|]; [|done].
  unfold Pool.handle. by destruct (Worker.task _ _ _ _ _ _ _).
Qed.

Lemma taken_insert ws i w x :
  ws !! i = Some w →
  flat_map Pool.w_in (<[i := Pool.handle w x]> ws) ≡ₚ flat_map Pool.w_in ws ++ [x].
Proof.
  revert i. induction ws as [|w0 ws IH]; intros [|i] Hi; simplify_eq/=.
  - rewrite w_in_handle, <- !app_assoc. apply Permutation_app_head, Permutation_app_comm.
  - rewrite (IH i Hi). by rewrite app_assoc.
Qed.

(** Nothing is lost and nothing is taken twice: the items taken, those on
    the queue and those still to put are, together, the items to put at
    the start. *)
Lemma exec_conserves a s s' :
  Pool.exec a s = Some s' →
  taken s' ++ Pool.queue s' ++ Pool.todo s' ≡ₚ taken s ++ Pool.queue s ++ Pool.todo s.
Proof.
  destruct a as [|i].
  - intros (x & rest & Ht & ->)%exec_put_inv. unfold taken. simpl.
    by rewrite Ht, <- app_assoc.
  - intros (w & x & rest & Hi & Hq & _ & ->)%exec_get_inv. unfold taken. simpl.
    rewrite Hq, (taken_insert _ _ _ x Hi), <- app_assoc. done.
Qed.

Lemma run_conserves sched :
  ∀ s s', Pool.run sched s = Some s' →
          taken s' ++ Pool.queue s' ++ Pool.todo s' ≡ₚ taken s ++ Pool.queue s ++ Pool.todo s.
Proof.
  induction sched as [|a sched IH]; intros s s'; simpl.
  - by intros [= <-].
  - destruct (Pool.exec a s) as [s1|] eqn:Hexec; [|done].
    intros Hrun. by rewrite (IH s1 s' Hrun), (exec_conserves a s s1 Hexec).
Qed.

Lemma exec_took_in_order a s s' :
  Forall took_in_order (Pool.workers s) → Pool.exec a s = Some s' →
  Forall took_in_order (Pool.workers s').
Proof.
  intros Hall Hexec. destruct a as [|i].
  - by apply exec_put_inv in Hexec as (x & rest & _ & ->).
  - apply exec_get_inv in Hexec as (w & x & rest & Hi & _ & Hrun & ->). simpl.
    apply Forall_insert; [done|].
    pose proof (Forall_lookup_1 _ _ _ _ Hall Hi) as Hw.
    unfold took_in_order in *. rewrite Hrun in Hw.
    rewrite w_done_handle, w_in_handle. destruct x as [r n p|]; simpl.
    + apply Forall_app. split; [done|by constructor].
    + by exists (Pool.w_in w).
Qed.

Lemma run_took_in_order sched :
  ∀ s s', Forall took_in_order (Pool.workers s) → Pool.run sched s = Some s' →
          Forall took_in_order (Pool.workers s').
Proof.
  induction sched as [|a sched IH]; intros s s' Hall; simpl.
  - by intros [= <-].
  - destruct (Pool.exec a s) as [s1|] eqn:Hexec; [|done].
    apply IH. by eapply exec_took_in_order.
Qed.

Lemma exec_shape n a s s' :
  pool_shape n s → Pool.exec a s = Some s' → pool_shape n s'.
Proof.
  intros (remaining & Hrem & Hq & Hlen & Hlate) Hexec.
  destruct a as [|i].
  - apply exec_put_inv in Hexec as (x & rest & Htodo & ->).
    exists remaining. simpl. repeat split; auto.
    by rewrite <- app_assoc, <- Hq, Htodo.
  - apply exec_get_inv in Hexec as (w & x & rest & Hi & Hqueue & Hrun & ->).
    rewrite Hqueue in Hq. simpl in Hq.
    pose proof (running_insert _ _ _ (Pool.handle w x) Hi) as Hk.
    rewrite Hrun, w_done_handle in Hk.
    destruct x as [r nm p|]; cbn [Pool.is_task negb] in Hk.
    + destruct remaining as [|y rem]; simpl in Hq.
      { destruct (Pool.running (Pool.workers s)); discriminate. }
      injection Hq as <- Hq. apply Forall_cons in Hrem as [_ Hrem].
      exists rem. cbn [Pool.queue Pool.todo Pool.workers].
      assert (Pool.running (<[i := Pool.handle w (Task r nm p)]> (Pool.workers s))
              = Pool.running (Pool.workers s)) as -> by lia.
      rewrite length_insert. repeat split; auto.
      intros Hlt. by specialize (Hlate Hlt).
    + destruct remaining as [|y rem]; simpl in Hq.
      2:{ injection Hq as <- _. by apply Forall_cons in Hrem as [? _]. }
      destruct (Pool.running (Pool.workers s)) as [|k] eqn:Hrunning; [done|].
      injection Hq as Hq.
      exists []. cbn [Pool.queue Pool.todo Pool.workers].
      assert (Pool.running (<[i := Pool.handle w Stop]> (Pool.workers s)) = k)
        as -> by lia.
      rewrite length_insert. repeat split; auto.
Qed.

Lemma run_shape n sched :
  ∀ s s', pool_shape n s → Pool.run sched s = Some s' → pool_shape n s'.
Proof.
  induction sched as [|a sched IH]; intros s s' Hshape; simpl.
  - by intros [= <-].
  - destruct (Pool.exec a s) as [s1|] eqn:Hexec; [|done].
    apply IH. by eapply exec_shape.
Qed.

(** A stuck pool with at least one worker has nothing left to put or to
    take, and every worker has stopped. *)
Lemma shape_stuck n s :
  (1 ≤ n)%nat → pool_shape n s → Pool.stuck s →
  Pool.todo s = [] ∧ Pool.queue s = [] ∧ Pool.all_done s.
Proof.
  intros Hn (remaining & Hrem & Hq & Hlen & Hlate) Hstuck.
  assert (Pool.todo s = []) as Htodo.
  { pose proof (Hstuck Pool.APut) as H. unfold Pool.exec in H.
    by destruct (Pool.todo s). }
  assert (Pool.running (Pool.workers s) = 0%nat) as Hk.
  { destruct (running_or_done (Pool.workers s)) as [Hall|(i & w & Hi & Hw)].
    - by apply all_done_running.
    - destruct (Pool.running (Pool.workers s)) as [|k] eqn:Hrunning; [done|].
      exfalso. rewrite Htodo, app_nil_r in Hq.
      pose proof (Hstuck (Pool.AGet i)) as H. unfold Pool.exec in H.
      rewrite Hi, Hw, Hq in H. by destruct remaining. }
  split; [done|]. split; [|by apply running_all_done].
  rewrite Htodo, app_nil_r, Hk, Hlate in Hq by lia. done.
Qed.

Lemma start_shape c walk g quiet B :
  pool_shape (nworkers c)
    (Pool.mkState (produced c walk) []
                  (repeat (Pool.mkWorker g quiet B [] [] [] false) (nworkers c))).
Proof.
  exists (walk_tasks c walk). simpl.
  rewrite running_repeat, repeat_length by done.
  repeat split; auto; [apply walk_tasks_are_tasks|]. intros Hlt. lia.
Qed.

Lemma start_took_in_order g quiet B k :
  Forall took_in_order (repeat (Pool.mkWorker g quiet B [] [] [] false) k).
Proof.
  apply Forall_forall. intros w Hw%list_elem_of_In%repeat_spec. subst.
  unfold took_in_order. simpl. constructor.
Qed.

(** X6. With at least one worker and whatever [os.walk] yields, every
    run of the pool that can go no further has put everything, emptied the
    queue and stopped every worker; the items the workers took are the
    items put, each one taken once; and every worker took tasks and then,
    as its last item, exactly one termination tuple. *)
Theorem every_item_is_taken_once (E : Env) (c : Config) :
  1 ≤ ncpus c →
  ∀ sched s,
    Pool.run sched (Pool.start (fastmod_folder E c).1) = Some s →
    Pool.stuck s →
    Pool.todo s = [] ∧ Pool.queue s = [] ∧ Pool.all_done s
    ∧ taken s ≡ₚ walk_tasks c (os_walk E (path c)) ++ repeat Stop (Z.to_nat (ncpus c))
    ∧ Forall (λ w, ∃ l, Forall (λ x, Pool.is_task x = true) l
                        ∧ Pool.w_in w = l ++ [Stop]) (Pool.workers s).
Proof.
  intros Hn sched s. rewrite start_fastmod_folder. intros Hrun Hstuck.
  destruct (shape_stuck (nworkers c) s) as (Htodo & Hqueue & Hdone).
  - unfold nworkers. lia.
  - eapply run_shape; [apply start_shape|exact Hrun].
  - done.
  - pose proof (run_conserves sched _ s Hrun) as Hperm.
    pose proof (run_took_in_order sched (Pool.mkState _ _ _) s
                  (start_took_in_order _ _ _ _) Hrun) as Horder.
    rewrite Htodo, Hqueue, !app_nil_r in Hperm. unfold taken at 2 in Hperm.
    simpl in Hperm.
    assert (flat_map Pool.w_in
              (repeat (Pool.mkWorker (if set_group c then group c else None)
                         (quiet c) (blocksize c) [] [] [] false) (nworkers c)) = [])
      as Hnone.
    { clear. induction (nworkers c) as [|k IH]; simpl; [done|]. exact IH. }
    rewrite Hnone in Hperm. simpl in Hperm.
    repeat split; auto.
    unfold Pool.all_done in Hdone.
    rewrite Forall_forall in Hdone. rewrite Forall_forall in Horder.
    apply Forall_forall. intros w Hw. specialize (Horder w Hw).
    unfold took_in_order in Horder. by rewrite (Hdone w Hw) in Horder.
Qed.

Lemma sample_schedule_rests :
  ∃ s,
    Pool.run sample_schedule (Pool.start (fastmod_folder sample_env two_worker_config).1)
    = Some s
    ∧ Pool.stuck s.
Proof.
  eexists. split; [vm_compute; reflexivity|].
  intros [|i]; [reflexivity|]. unfold Pool.exec. cbn [Pool.queue Pool.workers].
  by destruct (_ !! i).
Qed.

Lemma every_item_is_taken_once_witness :
  ∃ s,
    Pool.run sample_schedule (Pool.start (fastmod_folder sample_env two_worker_config).1)
    = Some s
    ∧ Pool.todo s = [] ∧ Pool.queue s = [] ∧ Pool.all_done s
    ∧ taken s ≡ₚ [Task "d" "." "u+x"; Task "d" "f" "a-w"; Stop; Stop].
Proof.
  destruct sample_schedule_rests as (s & Hrun & Hstuck). exists s.
  destruct (every_item_is_taken_once sample_env two_worker_config) with
    (sched := sample_schedule) (s := s) as (Ht & Hq & Hd & Hp & _);
    [simpl; lia|exact Hrun|exact Hstuck|].
  split; [exact Hrun|]. split; [exact Ht|]. split; [exact Hq|]. split; [exact Hd|].
  exact Hp.
Defined.

End PoolItems.

(** ** Every path is batched with its permissions *)

Section PoolCoverage.

Lemma elem_of_paths_with perms l x :
  x ∈ paths_with perms l ↔ ∃ r n, Task r n perms ∈ l ∧ x = Worker.resolve r n.
Proof.
  unfold paths_with. rewrite list_elem_of_In, in_flat_map. split.
  - intros ([r n p|] & Hin & Hx); [|done].
    destruct (decide (p = perms)) as [->|]; [|done].
    destruct Hx as [<-|[]]. exists r, n. split; [by apply list_elem_of_In|done].
  - intros (r & n & Hin & ->). exists (Task r n perms).
    split; [by apply list_elem_of_In|]. rewrite decide_True by done. by left.
Qed.

Lemma tasks_as_triples l :
  Forall (λ x, Pool.is_task x = true) l → ∃ ts, l = map Worker.task_of ts.
Proof.
  induction 1 as [|x l Hx _ [ts ->]]; [by exists []|].
  destruct x as [r n p|]; [|done]. by exists ((r, n, p) :: ts).
Qed.

(** X7. With at least one worker and whatever [os.walk] yields, when a
    run of the pool can go no further, some worker has written a path into
    a [chmod] command line with a permission string exactly when a task of
    the walk carries that path with that string: the path of every walked
    directory is written with the directory permissions, the path of every
    listed file with the file permissions, and no other path with any. As
    in X3 this is about the paths the command lines are composed of, which
    are quoted and not escaped. *)
Theorem every_path_is_batched_with_its_permissions (E : Env) (c : Config) :
  1 ≤ ncpus c →
  ∀ sched s,
    Pool.run sched (Pool.start (fastmod_folder E c).1) = Some s →
    Pool.stuck s →
    ∀ perms x,
      (∃ w, w ∈ Pool.workers s ∧ x ∈ batch_paths perms (Pool.w_out w))
      ↔ x ∈ paths_with perms (walk_tasks c (os_walk E (path c))).
Proof.
  intros Hn sched s. rewrite start_fastmod_folder. intros Hrun Hstuck perms x.
  destruct (shape_stuck (nworkers c) s) as (Htodo & Hqueue & Hdone).
  { unfold nworkers. lia. }
  { eapply run_shape; [apply start_shape|exact Hrun]. }
  { done. }
  pose proof (run_conserves sched _ s Hrun) as Hperm.
  pose proof (run_took_in_order sched (Pool.mkState _ _ _) s
                (start_took_in_order _ _ _ _) Hrun) as Horder.
  pose proof (run_agrees sched (Pool.mkState _ _ _) s (start_agrees _ _ _ _) Hrun)
    as Hagree.
  rewrite Htodo, Hqueue, !app_nil_r in Hperm. unfold taken at 2 in Hperm.
  simpl in Hperm.
  assert (flat_map Pool.w_in
            (repeat (Pool.mkWorker (if set_group c then group c else None)
                       (quiet c) (blocksize c) [] [] [] false) (nworkers c)) = [])
    as Hnone.
  { clear. induction (nworkers c) as [|k IH]; simpl; [done|]. exact IH. }
  rewrite Hnone in Hperm. simpl in Hperm.
  assert (∀ w, w ∈ Pool.workers s →
            ∀ y, y ∈ batch_paths perms (Pool.w_out w) ↔ y ∈ paths_with perms (Pool.w_in w))
    as Hworker.
  { intros w Hw y. unfold Pool.all_done in Hdone.
    rewrite Forall_forall in Hdone. rewrite Forall_forall in Horder.
    rewrite Forall_forall in Hagree.
    specialize (Hdone w Hw). specialize (Horder w Hw). specialize (Hagree w Hw).
    unfold took_in_order in Horder. unfold worker_agrees in Hagree.
    rewrite Hdone in Horder, Hagree.
    destruct Horder as (l & [ts ->]%tasks_as_triples & Hin).
    rewrite Hin in Hagree |- *.
    destruct (worker_main_covers (Pool.w_group w) (Pool.w_quiet w) (Pool.w_blocksize w)
                ts []) as (out & Hout & Hcover).
    rewrite Hout in Hagree. injection Hagree as <-.
    rewrite paths_with_app, elem_of_app, Hcover. simpl.
    split; [auto|]. by intros [?|?%not_elem_of_nil]. }
  assert (x ∈ paths_with perms (taken s)
          ↔ x ∈ paths_with perms (walk_tasks c (os_walk E (path c)))) as Htaken.
  { rewrite !elem_of_paths_with. unfold produced in Hperm.
    split; intros (r & n & Hin & ->); exists r, n; (split; [|done]).
    - rewrite Hperm in Hin. apply elem_of_app in Hin as [?|Hin]; [done|].
      apply list_elem_of_In, repeat_spec in Hin. done.
    - rewrite Hperm. apply elem_of_app. by left. }
  rewrite <- Htaken. unfold taken.
  split.
  - intros (w & Hw & Hx). apply (Hworker w Hw) in Hx.
    apply elem_of_paths_with in Hx as (r & n & Hin & ->).
    apply elem_of_paths_with. exists r, n. split; [|done].
    apply list_elem_of_In, in_flat_map. exists w.
    split; by apply list_elem_of_In.
  - intros (r & n & Hin & ->)%elem_of_paths_with.
    apply list_elem_of_In, in_flat_map in Hin as (w & Hw & Hin).
    apply list_elem_of_In in Hw. exists w. split; [done|].
    apply (Hworker w Hw), elem_of_paths_with. exists r, n.
    split; [by apply list_elem_of_In|done].
Qed.

Lemma every_path_is_batched_with_its_permissions_witness :
  ∃ s,
    Pool.run sample_schedule (Pool.start (fastmod_folder sample_env two_worker_config).1)
    = Some s
    ∧ ((∃ w, w ∈ Pool.workers s ∧ "d/f" ∈ batch_paths "a-w" (Pool.w_out w))
       ↔ "d/f" ∈ paths_with "a-w" [Task "d" "." "u+x"; Task "d" "f" "a-w"]).
Proof.
  destruct sample_schedule_rests as (s & Hrun & Hstuck). exists s.
  split; [exact Hrun|].
  refine (every_path_is_batched_with_its_permissions sample_env two_worker_config _
            sample_schedule s Hrun Hstuck "a-w" "d/f").
  simpl. lia.
Defined.

Lemma run_without_workers tasks sched :
  ∀ s s',
    Pool.workers s = [] → Pool.queue s ++ Pool.todo s = tasks →
    Pool.run sched s = Some s' →
    Pool.workers s' = [] ∧ Pool.queue s' ++ Pool.todo s' = tasks.
Proof.
  induction sched as [|a sched IH]; intros s s' Hws Hq; simpl.
  - by intros [= <-].
  - destruct (Pool.exec a s) as [s1|] eqn:Hexec; [|done].
    apply IH; destruct a as [|i].
    + by apply exec_put_inv in Hexec as (x & rest & _ & ->).
    + apply exec_get_inv in Hexec as (w & x & rest & Hi & _). by rewrite Hws in Hi.
    + apply exec_put_inv in Hexec as (x & rest & Ht & ->). simpl.
      by rewrite <- app_assoc, <- Hq, Ht.
    + apply exec_get_inv in Hexec as (w & x & rest & Hi & _). by rewrite Hws in Hi.
Qed.

Lemma walk_tasks_nonempty c walk : walk ≠ [] → walk_tasks c walk ≠ [].
Proof. destruct walk as [|[[root dirs] files] walk]; [done|]. by intros _. Qed.

(** X8. With a worker count of zero or less ([-C0], or the default on a
    machine with one processor) no worker exists: in every state the pool
    can reach no task has been taken, and they all stay on the queue or
    with the coordinator. [fastmod_folder] still returns normally and,
    when the walk is not empty and the clock has moved, prints the report
    with the full count. *)
Theorem no_worker_no_work_but_a_report (E : Env) (c : Config) :
  ncpus c ≤ 0 →
  (∀ sched s,
     Pool.run sched (Pool.start (fastmod_folder E c).1) = Some s →
     Pool.workers s = []
     ∧ Pool.queue s ++ Pool.todo s = walk_tasks c (os_walk E (path c)))
  ∧ (os_walk E (path c) ≠ [] → duration_is_zero E = false →
     ∃ es,
       fastmod_folder E c
       = (es ++ [Print (MsgReport (Z.of_nat (length (walk_tasks c (os_walk E (path c))))))],
          Ret tt)
       ∧ systems_of es = [] ∧ Pool.spawns_of es = []).
Proof.
  intros Hn.
  assert (Z.to_nat (ncpus c) = 0%nat) as Hzero by lia.
  split.
  - intros sched s. rewrite start_fastmod_folder. unfold produced, nworkers.
    rewrite Hzero. simpl. intros Hrun.
    eapply run_without_workers; [| |exact Hrun]; simpl; [done|].
    by rewrite app_nil_r.
  - intros Hwalk Hclock. rewrite fastmod_folder_trace, Hzero. simpl.
    unfold report. rewrite Hclock.
    assert ((Z.of_nat (length (walk_tasks c (os_walk E (path c)))) =? 0) = false) as ->.
    { apply Z.eqb_neq. pose proof (walk_tasks_nonempty c _ Hwalk).
      destruct (walk_tasks c (os_walk E (path c))); [done|]. simpl. lia. }
    simpl.
    exists ((if quiet c then [] else [Print (MsgUsing (ncpus c) (blocksize c))])
              ++ map Put (walk_tasks c (os_walk E (path c)))).
    split; [by rewrite <- app_assoc|].
    rewrite systems_of_app, spawns_of_app, spawns_of_map_Put.
    assert (systems_of (map Put (walk_tasks c (os_walk E (path c)))) = []) as ->.
    { induction (walk_tasks c (os_walk E (path c))); simpl; auto. }
    by destruct (quiet c).
Qed.

Lemma no_worker_no_work_but_a_report_witness :
  ∃ es,
    fastmod_folder sample_env no_worker_config = (es ++ [Print (MsgReport 2)], Ret tt)
    ∧ systems_of es = [] ∧ Pool.spawns_of es = [].
Proof.
  refine (proj2 (no_worker_no_work_but_a_report sample_env no_worker_config _) _ _).
  - simpl. lia.
  - simpl. discriminate.
  - reflexivity.
Defined.

End PoolCoverage.

(** ** Parsing the arguments *)

Section Parsing.

#[local] Arguments String.append : simpl nomatch.

Lemma bind_ret_l {A B} (a : A) (k : A → M B) : (ret a ≫= k) = k a.
Proof. unfold ret, mbind, M_bind. by destruct (k a). Qed.

Lemma bind_assoc {A B C} (m : M A) (f : A → M B) (h : B → M C) :
  ((m ≫= f) ≫= h) = (m ≫= (λ a, f a ≫= h)).
Proof.
  unfold mbind, M_bind. destruct m as [es [a| |]]; try done.
  destruct (f a) as [es1 [b| |]]; try done.
  destruct (h b) as [es2 r]. by rewrite app_assoc.
Qed.

(** An argument that is accepted prints nothing, leaves the path alone
    and keeps the group consistent. *)
Lemma parse_arg_accepts E arg c es c' :
  parse_arg E arg c = (es, Ret (Some c')) →
  es = [] ∧ path c' = path c ∧ (group_is_consistent c → group_is_consistent c').
Proof.
  unfold parse_arg, group_is_consistent, ret, raise, emit, mbind, M_bind.
  intros H. repeat case_match; simplify_eq/=; repeat split; auto; try tauto;
    try (intros _; by eexists).
Qed.

Lemma parse_arg_no_exit E arg c es code : parse_arg E arg c ≠ (es, Exit code).
Proof.
  unfold parse_arg, ret, raise, emit, mbind, M_bind.
  intros H. repeat case_match; simplify_eq/=.
Qed.

Lemma parse_rest_accepts E args :
  ∀ c es c',
    parse_rest E args c = (es, Ret (Some c')) →
    es = [] ∧ path c' = path c ∧ (group_is_consistent c → group_is_consistent c').
Proof.
  induction args as [|arg args IH]; intros c es c'; simpl.
  - by intros [= <- <-].
  - destruct (parse_arg E arg c) as [es1 [[c1|]| |]] eqn:Harg; simpl; try done.
    destruct (parse_rest E args c1) as [es2 r] eqn:Hrest. intros [= <- ->].
    apply parse_arg_accepts in Harg as (-> & Hp1 & Hg1).
    apply IH in Hrest as (-> & Hp2 & Hg2).
    split; [done|]. split; [congruence|]. intros Hc. by apply Hg2, Hg1.
Qed.

Lemma parse_rest_no_exit E args : ∀ c es code, parse_rest E args c ≠ (es, Exit code).
Proof.
  induction args as [|arg args IH]; intros c es code; simpl; [done|].
  destruct (parse_arg E arg c) as [es1 [[c1|]| |]] eqn:Harg; simpl; try done.
  - destruct (parse_rest E args c1) as [es2 r] eqn:Hrest. intros [= <- ->].
    by apply IH in Hrest.
  - by apply parse_arg_no_exit in Harg.
Qed.

Lemma parse_args_accepts E argv es c :
  parse_args E argv = (es, Ret (Some c)) →
  es = []
  ∧ (∃ prog rest, argv = prog :: path c :: rest)
  ∧ path_exists E (path c) = true
  ∧ (set_group c = true ↔ is_Some (group c)).
Proof.
  unfold parse_args. destruct argv as [|prog [|p rest]]; try done.
  unfold Config_init. destruct (preset (DEFAULT_PRESET E) PRESETS) as [[fil dir]|]; [|done].
  rewrite bind_ret_l. destruct (path_exists E p) eqn:Hex; [|done].
  rewrite bind_ret_l. intros (-> & Hpath & Hgroup)%parse_rest_accepts.
  simpl in Hpath. subst p. repeat split; eauto.
  - apply Hgroup. unfold group_is_consistent. simpl. split; [done|by intros [? ?]].
  - apply Hgroup. unfold group_is_consistent. simpl. split; [done|by intros [? ?]].
Qed.

(** X9. When [parse_args] returns a configuration it has printed
    nothing, the path of the configuration is the first argument and it
    exists, and a group is named exactly when one is to be set; so
    [fastmod_file] and the workers never get a missing group to apply. *)
Theorem parsed_configuration_is_consistent
    (E : Env) (argv : list string) (es : list event) (c : Config) :
  parse_args E argv = (es, Ret (Some c)) →
  es = []
  ∧ (∃ prog rest, argv = prog :: path c :: rest)
  ∧ path_exists E (path c) = true
  ∧ (set_group c = true ↔ is_Some (group c)).
Proof. apply parse_args_accepts. Qed.

Lemma parsed_configuration_is_consistent_witness :
  path_exists sample_env "x" = true
  ∧ (true = true ↔ is_Some (Some "users")).
Proof.
  destruct (parsed_configuration_is_consistent sample_env ["fastmod"; "x"; "-G"; "-q"] []
              (mkConfig "x" "u+rw,g+r-w,o+r-w" "u+rwx,g+rxs-w,o+rx-w"
                        (Some "users") true 3 128 true) eq_refl)
    as (_ & _ & Hex & Hg).
  split; [exact Hex|exact Hg].
Defined.

Lemma parse_rest_app E args1 args2 c :
  parse_rest E (args1 ++ args2) c
  = (r ← parse_rest E args1 c;
     match r with
     | None => ret None
     | Some c' => parse_rest E args2 c'
     end).
Proof.
  revert c. induction args1 as [|arg args1 IH]; intros c.
  - change (parse_rest E [] c) with (ret (Some c)). by rewrite bind_ret_l.
  - simpl. destruct (parse_arg E arg c) as [es [[c1|]| |]]; simpl; try done;
      [|by rewrite !app_nil_r].
    rewrite IH.
    destruct (parse_rest E args1 c1) as [es1 [[c2|]| |]]; simpl;
      [destruct (parse_rest E args2 c2) as [es2 r]|..]; by rewrite ?app_assoc.
Qed.

Lemma prefix_empty s : String.prefix "" s = true.
Proof. by destruct s. Qed.

Lemma parse_arg_blocksize E s n c :
  py_int E s = Some n →
  parse_arg E ("-B" +:+ s) c
  = ([], Ret (Some (mkConfig (path c) (perms_fil c) (perms_dir c) (group c)
                             (set_group c) (ncpus c) n (quiet c)))).
Proof.
  intros Hint. unfold parse_arg.
  change ("-B" +:+ s) with (String "-" (String "B" s)).
  simpl. by rewrite Hint, prefix_empty.
Qed.

(** X10. The arguments are read from left to right, each one from the
    configuration its predecessors left, and the first argument that is
    refused ends the parse: parsing a concatenation is parsing the first
    list and then, from its configuration, the second. So a later option
    overrides an earlier one: a [-B] at the end sets the block size
    whatever came before. *)
Theorem arguments_are_read_left_to_right (E : Env) (args1 args2 : list string) (c : Config) :
  parse_rest E (args1 ++ args2) c
  = (r ← parse_rest E args1 c;
     match r with
     | None => ret None
     | Some c' => parse_rest E args2 c'
     end)
  ∧ ∀ c1 s n,
      parse_rest E args1 c = ([], Ret (Some c1)) → py_int E s = Some n →
      parse_rest E (args1 ++ ["-B" +:+ s]) c
      = ([], Ret (Some (mkConfig (path c1) (perms_fil c1) (perms_dir c1) (group c1)
                                 (set_group c1) (ncpus c1) n (quiet c1)))).
Proof.
  split; [apply parse_rest_app|].
  intros c1 s n Hrest Hint. rewrite parse_rest_app, Hrest.
  change (([], Ret (Some c1)) : M (option Config)) with (ret (Some c1)).
  rewrite bind_ret_l.
  change (parse_rest E ["-B" +:+ s] c1)
    with (r ← parse_arg E ("-B" +:+ s) c1;
          match r with None => ret None | Some c' => parse_rest E [] c' end).
  by rewrite (parse_arg_blocksize E s n c1 Hint).
Qed.

Lemma arguments_are_read_left_to_right_witness :
  parse_rest sample_env (["-B7"; "-q"] ++ ["-B0"])
    (mkConfig "d" "a-w" "a-w" None false 3 128 false)
  = ([], Ret (Some (mkConfig "d" "a-w" "a-w" None false 3 0 true))).
Proof.
  exact (proj2 (arguments_are_read_left_to_right sample_env ["-B7"; "-q"] ["-B0"]
                  (mkConfig "d" "a-w" "a-w" None false 3 128 false))
               (mkConfig "d" "a-w" "a-w" None false 3 7 true) "0" 0 eq_refl eq_refl).
Defined.

End Parsing.

(** ** Permission arguments, refused arguments, what is printed *)

Section Arguments.

#[local] Arguments String.append : simpl nomatch.

Lemma split_on_no c s : contains c s = false → split_on c s = [s].
Proof.
  induction s as [|a s IH]; simpl; [done|].
  destruct (decide (a = c)); [done|]. intros Hs. by rewrite (IH Hs).
Qed.

Lemma split_on_first c fil dir :
  contains c fil = false → split_on c (fil +:+ String c dir) = fil :: split_on c dir.
Proof.
  induction fil as [|a fil IH]; simpl.
  - intros _. by rewrite decide_True.
  - destruct (decide (a = c)); [done|]. intros Hfil. by rewrite (IH Hfil).
Qed.

Lemma split_on_length c s : length (split_on c s) = S (count_char c s).
Proof.
  induction s as [|a s IH]; simpl; [done|].
  destruct (decide (a = c)); simpl; [by rewrite IH|].
  destruct (split_on c s) as [|w ws]; simpl in *; [done|lia].
Qed.

Lemma contains_count c s : contains c s = true ↔ (1 ≤ count_char c s)%nat.
Proof.
  induction s as [|a s IH]; simpl; [split; [done|lia]|].
  destruct (decide (a = c)); simpl; [split; [lia|done]|done].
Qed.

Lemma contains_append_r c fil dir : contains c (fil +:+ String c dir) = true.
Proof.
  induction fil as [|a fil IH]; simpl; [by rewrite decide_True|].
  by destruct (decide (a = c)).
Qed.

(** X11. An argument that is no option ([-G], [-C], [-B], [--] do not
    start it) and holds a colon is a pair of permission strings: with
    exactly one colon, [fil:dir] sets the file permissions to [fil] and the
    directory permissions to [dir] (either may be empty); with two colons
    or more it is refused with the syntax message. *)
Theorem colon_argument_sets_both_permissions (E : Env) (c : Config) (arg : string) :
  String.prefix "-G" arg = false → String.prefix "-C" arg = false →
  String.prefix "-B" arg = false → String.prefix "--" arg = false →
  (∀ fil dir,
     arg = fil +:+ ":" +:+ dir →
     contains colon fil = false → contains colon dir = false →
     parse_arg E arg c
     = ([], Ret (Some (mkConfig (path c) fil dir (group c) (set_group c)
                                (ncpus c) (blocksize c) (quiet c)))))
  ∧ ((2 ≤ count_char colon arg)%nat →
     parse_arg E arg c = ([Print MsgFlagsSyntax], Ret None)).
Proof.
  intros HG HC HB Hdash. unfold parse_arg. rewrite HG, HC, HB, Hdash. split.
  - intros fil dir -> Hfil Hdir.
    change (":" +:+ dir) with (String colon dir).
    rewrite decide_False.
    2:{ intros Heq. pose proof (contains_append_r colon fil dir) as Hc.
        rewrite Heq in Hc. by vm_compute in Hc. }
    by rewrite contains_append_r, split_on_first, (split_on_no colon dir Hdir).
  - intros Hcount.
    rewrite decide_False.
    2:{ intros ->. vm_compute in Hcount. lia. }
    assert (contains colon arg = true) as -> by (apply contains_count; lia).
    pose proof (split_on_length colon arg) as Hlen.
    destruct (split_on colon arg) as [|w1 [|w2 [|w3 ws]]]; simpl in Hlen; try lia.
    done.
Qed.

Lemma colon_argument_sets_both_permissions_witness :
  parse_arg sample_env "u+x:g+s" (mkConfig "d" "a-w" "a-w" None false 3 128 false)
  = ([], Ret (Some (mkConfig "d" "u+x" "g+s" None false 3 128 false)))
  ∧ parse_arg sample_env "a:b:c" (mkConfig "d" "a-w" "a-w" None false 3 128 false)
    = ([Print MsgFlagsSyntax], Ret None).
Proof.
  split.
  - exact (proj1 (colon_argument_sets_both_permissions sample_env
                    (mkConfig "d" "a-w" "a-w" None false 3 128 false) "u+x:g+s"
                    eq_refl eq_refl eq_refl eq_refl)
                 "u+x" "g+s" eq_refl eq_refl eq_refl).
  - refine (proj2 (colon_argument_sets_both_permissions sample_env
                     (mkConfig "d" "a-w" "a-w" None false 3 128 false) "a:b:c"
                     eq_refl eq_refl eq_refl eq_refl) _).
    vm_compute. lia.
Defined.

Lemma parse_args_exit_code E argv es code :
  parse_args E argv = (es, Exit code) → code = 1.
Proof.
  unfold parse_args. destruct argv as [|prog [|p rest]]; try done.
  unfold Config_init. destruct (preset (DEFAULT_PRESET E) PRESETS) as [[fil dir]|]; [|done].
  rewrite bind_ret_l. destruct (path_exists E p).
  - rewrite bind_ret_l. intros H. by apply parse_rest_no_exit in H.
  - simpl. by intros [= _ <-].
Qed.

(** X12. A run that gets no configuration (no path given, a path that
    does not exist, an unknown preset, a malformed permission pair, a
    block size or worker count that is no integer) ends with status 1
    having done nothing but print: no worker, no queue, no command. Any
    other run has a configuration, parsed without a line printed. *)
Theorem no_configuration_no_action (E : Env) (argv : list string) :
  (∃ c, parse_args E argv = ([], Ret (Some c)))
  ∨ ((script E argv).2 = 1 ∧ Forall (λ e, is_print e = true) (script E argv).1).
Proof.
  destruct argv as [|prog [|p rest]].
  - right. split; [done|]. repeat constructor.
  - right. split; [done|]. repeat constructor.
  - pose proof (parse_args_prints E (prog :: p :: rest)) as Hprints.
    destruct (parse_args E (prog :: p :: rest)) as [es r] eqn:Hparse.
    destruct r as [[c|]|code|e].
    + left. exists c. by apply parse_args_accepts in Hparse as (-> & _).
    + right. unfold script, main. rewrite Hparse. simpl.
      rewrite app_nil_r. by split.
    + right. apply parse_args_exit_code in Hparse as Hcode. subst code.
      unfold script, main. rewrite Hparse. by split.
    + right. unfold script, main. rewrite Hparse. by split.
Qed.

Lemma prints_of_app es1 es2 : prints_of (es1 ++ es2) = prints_of es1 ++ prints_of es2.
Proof. induction es1 as [|[] es1 IH]; simpl; by rewrite ?IH. Qed.

Lemma prints_of_silent es :
  Forall (λ e, is_print e = false) es → prints_of es = [].
Proof. induction 1 as [|e es He _ IH]; [done|]. by destruct e. Qed.

Lemma walk_tasks_count c walk :
  length (walk_tasks c walk)
  = (length walk + list_sum (map (λ e : walk_entry, length e.2) walk))%nat.
Proof.
  induction walk as [|[[root dirs] files] walk IH]; [done|].
  change (walk_tasks c ((root, dirs, files) :: walk))
    with (entry_tasks c (root, dirs, files) ++ walk_tasks c walk).
  rewrite length_app, IH. simpl. rewrite length_map. lia.
Qed.

(** The trace of [fastmod_folder] before the report. *)
Lemma folder_prefix_silent (c : Config) (walk : list walk_entry) :
  Forall (λ e, is_print e = false)
    (repeat (Spawn (if set_group c then group c else None) (quiet c) (blocksize c))
            (Z.to_nat (ncpus c))
       ++ map Put (walk_tasks c walk)
       ++ repeat (Put Stop) (Z.to_nat (ncpus c))
       ++ repeat Join (Z.to_nat (ncpus c))).
Proof.
  repeat (apply Forall_app; split); apply Forall_forall; intros e He.
  - by apply list_elem_of_In, repeat_spec in He as ->.
  - by apply list_elem_of_In, in_map_iff in He as (x & <- & _).
  - by apply list_elem_of_In, repeat_spec in He as ->.
  - by apply list_elem_of_In, repeat_spec in He as ->.
Qed.

Lemma folder_prefix_no_system (c : Config) (walk : list walk_entry) :
  systems_of
    (repeat (Spawn (if set_group c then group c else None) (quiet c) (blocksize c))
            (Z.to_nat (ncpus c))
       ++ map Put (walk_tasks c walk)
       ++ repeat (Put Stop) (Z.to_nat (ncpus c))
       ++ repeat Join (Z.to_nat (ncpus c))) = [].
Proof.
  rewrite !systems_of_app.
  assert (∀ e k, (∀ c, e ≠ System c) → systems_of (repeat e k) = []) as Hrep.
  { intros e k He. induction k as [|k IH]; [done|].
    destruct e as [m|g q b|x| |c0]; simpl; auto. by destruct (He c0). }
  rewrite !Hrep by done.
  by induction (walk_tasks c walk).
Qed.

(** [fastmod_folder] is its [Using] line unless quiet, a part that
    prints nothing and runs no command, and the report. *)
Lemma fastmod_folder_split E c :
  ∃ pre,
    fastmod_folder E c
    = ((if quiet c then [] else [Print (MsgUsing (ncpus c) (blocksize c))])
         ++ pre ++ (report E (Z.of_nat (length (walk_tasks c (os_walk E (path c)))))).1,
       (report E (Z.of_nat (length (walk_tasks c (os_walk E (path c)))))).2)
    ∧ prints_of pre = [] ∧ systems_of pre = [].
Proof.
  eexists. split; [|split].
  - rewrite fastmod_folder_trace. f_equal. f_equal.
    rewrite 3!app_assoc. reflexivity.
  - apply prints_of_silent. rewrite <- !app_assoc. apply folder_prefix_silent.
  - rewrite <- !app_assoc. apply folder_prefix_no_system.
Qed.

(** X13. When quiet, a run on a directory prints the report line and
    nothing else (nothing at all when the report raises), and a run on a
    single file prints [Done] and nothing else. *)
Theorem quiet_run_prints_one_line
    (E : Env) (argv : list string) (es0 : list event) (c : Config) :
  parse_args E argv = (es0, Ret (Some c)) →
  quiet c = true →
  prints_of (script E argv).1
  = if path_isdir E (path c)
    then prints_of (report E (Z.of_nat (length (walk_tasks c (os_walk E (path c)))))).1
    else [MsgDone].
Proof.
  intros Hparse Hq.
  apply parse_args_accepts in Hparse as Hacc. destruct Hacc as (-> & _).
  destruct argv as [|a [|p rest]]; try discriminate.
  unfold script, main. rewrite Hparse. unfold mbind, M_bind. cbv beta iota.
  rewrite Hq. simpl when.
  destruct (path_isdir E (path c)).
  - destruct (fastmod_folder_split E c) as (pre & -> & Hpre & _). rewrite Hq.
    destruct (report E _) as [esr [[]|code|e]]; simpl;
      rewrite ?app_nil_r, !prints_of_app, Hpre; done.
  - unfold fastmod_file, when, emit. by destruct (set_group c).
Qed.

Lemma quiet_run_prints_one_line_witness :
  prints_of (script sample_env ["fastmod"; "d"; "-q"; "-C2"]).1 = [MsgReport 2]
  ∧ prints_of (script sample_env ["fastmod"; "x"; "-q"; "-G"]).1 = [MsgDone].
Proof.
  split.
  - exact (quiet_run_prints_one_line sample_env ["fastmod"; "d"; "-q"; "-C2"] []
             (mkConfig "d" "u+rw,g+r-w,o+r-w" "u+rwx,g+rxs-w,o+rx-w" None false 2 128 true)
             eq_refl eq_refl).
  - exact (quiet_run_prints_one_line sample_env ["fastmod"; "x"; "-q"; "-G"] []
             (mkConfig "x" "u+rw,g+r-w,o+r-w" "u+rwx,g+rxs-w,o+rx-w"
                       (Some "users") true 3 128 true)
             eq_refl eq_refl).
Defined.

End Arguments.

(** ** A run on a directory *)

Section DirectoryRun.

(** A run on a directory is what [parse_args] and [main] print followed
    by [fastmod_folder]. *)
Lemma script_on_directory E argv es0 c :
  parse_args E argv = (es0, Ret (Some c)) →
  path_isdir E (path c) = true →
  ∃ head,
    Forall (λ e, is_print e = true) head
    ∧ script E argv
      = (head ++ (fastmod_folder E c).1,
         match (fastmod_folder E c).2 with
         | Ret _ => 0
         | Exit code => code
         | Raise _ => 1
         end).
Proof.
  intros Hparse Hdir.
  pose proof (parse_args_prints E argv) as Hprints.
  rewrite Hparse in Hprints. simpl in Hprints.
  destruct argv as [|a [|p rest]]; try discriminate.
  exists (es0 ++ (if quiet c then []
                  else [Print (MsgFilePerms (perms_fil c)); Print (MsgDirPerms (perms_dir c))]
                       ++ (if set_group c then [Print (MsgGroup (group c))] else []))).
  split.
  - apply Forall_app. split; [done|].
    destruct (quiet c), (set_group c); repeat constructor.
  - unfold script, main. rewrite Hparse. unfold mbind, M_bind. cbv beta iota.
    rewrite Hdir. destruct (fastmod_folder E c) as [esf rf].
    unfold when, emit, ret.
    destruct (quiet c), (set_group c), rf as [[]|code|e]; simpl;
      rewrite ?app_nil_r, <- ?app_assoc; reflexivity.
Qed.

(** With nothing left on the queue, because nothing was put or because
    workers were started and joined, the process ends with the status of
    [script]. *)
Lemma process_ends_when_nothing_is_left pipe_holds E argv :
  Pool.puts_of (script E argv).1 = [] ∨ Pool.spawns_of (script E argv).1 ≠ [] →
  process_end pipe_holds E argv = ((script E argv).1, Exits (script E argv).2).
Proof.
  unfold process_end, left_on_queue. destruct (script E argv) as [es status]. simpl.
  intros [Hputs|Hspawns].
  - rewrite Hputs. by destruct (Pool.spawns_of es).
  - by destruct (Pool.spawns_of es).
Qed.

(** On a walk that is not empty the report raises exactly when the two
    clock readings coincide. *)
Lemma report_of_a_walk E c :
  os_walk E (path c) ≠ [] →
  report E (Z.of_nat (length (walk_tasks c (os_walk E (path c)))))
  = if duration_is_zero E then ([], Raise ZeroDivisionError)
    else ([Print (MsgReport (Z.of_nat (length (walk_tasks c (os_walk E (path c))))))],
          Ret tt).
Proof.
  intros Hwalk. unfold report.
  assert ((Z.of_nat (length (walk_tasks c (os_walk E (path c)))) =? 0) = false) as ->.
  { apply Z.eqb_neq. pose proof (walk_tasks_nonempty c _ Hwalk).
    destruct (walk_tasks c (os_walk E (path c))); [done|]. simpl. lia. }
  by destruct (duration_is_zero E).
Qed.

(** X14. A run on a directory whose walk is not empty runs no command in
    the coordinating process itself, puts the tasks of the walk and then
    the termination tuples, and prints a report whose count is one per
    walked directory plus one per listed file, unless the two clock
    readings coincide: then [total/duration] raises. With at least one
    worker the pool leaves nothing on the queue and the process ends, with
    status 0, or 1 when the report raised. With no worker ([-C0]) every
    task is left on the queue, and the process ends with that status only
    if the pipe of the queue can hold them all: otherwise it never ends,
    report printed or not. *)
Theorem directory_run_counts_every_entry
    (E : Env) (argv : list string) (es0 : list event) (c : Config)
    (pipe_holds : list qitem → bool) :
  parse_args E argv = (es0, Ret (Some c)) →
  path_isdir E (path c) = true →
  os_walk E (path c) ≠ [] →
  systems_of (script E argv).1 = []
  ∧ Pool.start (script E argv).1 = Pool.start (fastmod_folder E c).1
  ∧ Pool.puts_of (script E argv).1 = produced c (os_walk E (path c))
  ∧ (duration_is_zero E = false →
     Print (MsgReport (Z.of_nat (length (os_walk E (path c))
                                 + list_sum (map (λ e : walk_entry, length e.2)
                                                 (os_walk E (path c))))))
     ∈ (script E argv).1)
  ∧ (process_end pipe_holds E argv).1 = (script E argv).1
  ∧ (1 ≤ ncpus c →
     (∀ sched s,
        Pool.run sched (Pool.start (script E argv).1) = Some s → Pool.stuck s →
        Pool.queue s ++ Pool.todo s = [])
     ∧ (process_end pipe_holds E argv).2 = Exits (if duration_is_zero E then 1 else 0))
  ∧ (ncpus c ≤ 0 →
     (∀ sched s,
        Pool.run sched (Pool.start (script E argv).1) = Some s →
        Pool.queue s ++ Pool.todo s = walk_tasks c (os_walk E (path c)))
     ∧ (process_end pipe_holds E argv).2
       = if pipe_holds (walk_tasks c (os_walk E (path c)))
         then Exits (if duration_is_zero E then 1 else 0)
         else Hangs).
Proof.
  intros Hparse Hdir Hwalk.
  destruct (script_on_directory E argv es0 c Hparse Hdir) as (head & Hhead & Hscript).
  apply prints_only in Hhead as (Hspawns & Hputs & Hsys).
  pose proof (start_fastmod_folder E c) as Hstart.
  assert (Pool.start (script E argv).1 = Pool.start (fastmod_folder E c).1) as Hsame.
  { rewrite Hscript. unfold Pool.start. simpl.
    by rewrite puts_of_app, spawns_of_app, Hspawns, Hputs. }
  pose proof (f_equal Pool.todo Hstart) as Htodo.
  pose proof (f_equal Pool.workers Hstart) as Hworkers.
  cbn [Pool.start Pool.todo Pool.workers] in Htodo, Hworkers.
  assert ((fastmod_folder E c).2
          = if duration_is_zero E then Raise ZeroDivisionError else Ret tt) as Hresult.
  { rewrite fastmod_folder_trace. simpl. rewrite report_of_a_walk by done.
    by destruct (duration_is_zero E). }
  assert (let status := if duration_is_zero E then 1 else 0 in
          process_end pipe_holds E argv
          = ((script E argv).1,
             match left_on_queue (fastmod_folder E c).1 with
             | [] => Exits status
             | _ :: _ =>
                 if pipe_holds (left_on_queue (fastmod_folder E c).1)
                 then Exits status else Hangs
             end)) as Hend.
  { unfold process_end. rewrite Hscript. simpl.
    assert (left_on_queue (head ++ (fastmod_folder E c).1)
            = left_on_queue (fastmod_folder E c).1) as ->.
    { unfold left_on_queue. by rewrite puts_of_app, spawns_of_app, Hspawns, Hputs. }
    rewrite Hresult.
    destruct (left_on_queue (fastmod_folder E c).1), (duration_is_zero E); reflexivity. }
  cbv zeta in Hend.
  split; [|split; [exact Hsame|split; [|split; [|split; [|split]]]]].
  - rewrite Hscript. simpl. rewrite systems_of_app, Hsys. simpl.
    destruct (fastmod_folder_split E c) as (pre & Hfolder & _ & Hpre).
    rewrite Hfolder. simpl. rewrite !systems_of_app, Hpre.
    rewrite report_of_a_walk by done.
    by destruct (quiet c), (duration_is_zero E).
  - rewrite Hscript. simpl. by rewrite puts_of_app, Hputs.
  - intros Hclock. rewrite Hscript. simpl. apply elem_of_app. right.
    rewrite fastmod_folder_trace. simpl. rewrite report_of_a_walk by done.
    rewrite Hclock, <- (walk_tasks_count c). simpl.
    rewrite !elem_of_app. do 5 right. by apply list_elem_of_singleton.
  - by rewrite Hend.
  - intros Hn. split.
    + intros sched s. rewrite Hsame, Hstart. intros Hrun Hstuck.
      destruct (shape_stuck (nworkers c) s) as (Ht & Hq & _).
      * unfold nworkers. lia.
      * eapply run_shape; [apply start_shape|exact Hrun].
      * done.
      * by rewrite Ht, Hq.
    + rewrite Hend. simpl. unfold left_on_queue. rewrite Hworkers. unfold nworkers.
      destruct (Z.to_nat (ncpus c)) as [|k] eqn:Hk; [lia|]. reflexivity.
  - intros Hn.
    assert (Z.to_nat (ncpus c) = 0%nat) as Hzero by lia.
    split.
    + intros sched s. rewrite Hsame, Hstart. unfold produced, nworkers.
      rewrite Hzero. simpl. intros Hrun.
      eapply run_without_workers; [| |exact Hrun]; simpl; [done|].
      by rewrite app_nil_r.
    + rewrite Hend. simpl. unfold left_on_queue. rewrite Hworkers, Htodo.
      unfold produced, nworkers. rewrite Hzero. simpl. rewrite app_nil_r.
      pose proof (walk_tasks_nonempty c _ Hwalk).
      by destruct (walk_tasks c (os_walk E (path c))).
Qed.

Lemma directory_run_counts_every_entry_witness :
  (systems_of (script sample_env ["fastmod"; "d"; "-C2"]).1 = []
   ∧ Print (MsgReport 2) ∈ (script sample_env ["fastmod"; "d"; "-C2"]).1
   ∧ (process_end (λ _, false) sample_env ["fastmod"; "d"; "-C2"]).2 = Exits 0)
  ∧ (process_end (λ _, false) sample_env ["fastmod"; "d"; "-C0"; "-q"]).2 = Hangs.
Proof.
  split.
  - destruct (directory_run_counts_every_entry sample_env ["fastmod"; "d"; "-C2"] []
                (mkConfig "d" "u+rw,g+r-w,o+r-w" "u+rwx,g+rxs-w,o+rx-w" None false 2 128 false)
                (λ _, false) eq_refl eq_refl)
      as (Hsys & _ & _ & Hreport & _ & Hworkers & _).
    + simpl. discriminate.
    + split; [exact Hsys|]. split; [exact (Hreport eq_refl)|].
      refine (proj2 (Hworkers _)). simpl. lia.
  - destruct (directory_run_counts_every_entry sample_env ["fastmod"; "d"; "-C0"; "-q"] []
                no_worker_config (λ _, false) eq_refl eq_refl)
      as (_ & _ & _ & _ & _ & _ & Hnone).
    + simpl. discriminate.
    + refine (proj2 (Hnone _)). simpl. lia.
Defined.

End DirectoryRun.

(** ** The default preset and the end of every run *)

Section Defaults.

(** X15. When the default preset of the environment is no key of
    [PRESETS], every run with a path argument dies in [Config()] with
    [KeyError], before the path is looked at and whatever the other
    arguments say (an explicit preset included): nothing is printed and the
    status is 1. *)
Theorem unknown_default_preset_stops_every_run
    (E : Env) (prog p : string) (args : list string) :
  preset (DEFAULT_PRESET E) PRESETS = None →
  main E (prog :: p :: args) = ([], Raise KeyError)
  ∧ script E (prog :: p :: args) = ([], 1).
Proof.
  intros Hpreset. unfold script, main, parse_args, Config_init.
  by rewrite Hpreset.
Qed.

Lemma unknown_default_preset_stops_every_run_witness :
  main bad_preset_env ["fastmod"; "d"; "--readonly"] = ([], Raise KeyError)
  ∧ script bad_preset_env ["fastmod"; "d"; "--readonly"] = ([], 1).
Proof.
  exact (unknown_default_preset_stops_every_run bad_preset_env
           "fastmod" "d" ["--readonly"] eq_refl).
Defined.

(** X16. Whatever the configuration and the walk, the pool cannot run
    for ever: no schedule has more steps than twice the number of items
    the coordinator puts, and some schedule leads to a state where no
    process can move. *)
Theorem pool_always_comes_to_rest (E : Env) (c : Config) :
  (∀ sched s,
     Pool.run sched (Pool.start (fastmod_folder E c).1) = Some s →
     (length sched ≤ 2 * length (produced c (os_walk E (path c))))%nat)
  ∧ ∃ sched s,
      Pool.run sched (Pool.start (fastmod_folder E c).1) = Some s ∧ Pool.stuck s.
Proof.
  rewrite start_fastmod_folder. split.
  - intros sched s Hrun. apply run_fuel in Hrun. unfold Pool.fuel in Hrun.
    simpl in Hrun. lia.
  - by eapply run_to_stuck.
Qed.

End Defaults.

Lemma pool_always_comes_to_rest_witness :
  (length [Pool.APut; Pool.AGet 0; Pool.APut]
   ≤ 2 * length (produced (mkConfig "d" "a-w" "a-w" None false 2 1 true)
                          (os_walk sample_env "d")))%nat.
Proof.
  refine (proj1 (pool_always_comes_to_rest sample_env
                   (mkConfig "d" "a-w" "a-w" None false 2 1 true))
                [Pool.APut; Pool.AGet 0; Pool.APut] _ _).
  vm_compute. reflexivity.
Defined.
